(** * Cypherpunk Quotes Bot: quote selection, composition and publication

    A shallow embedding of [bot/index.ts] (the scheduled posting script, in
    its current revision) and of the dashboard helpers in
    [src/lib/quotes.ts] and [src/lib/botService.ts].

    Modelling conventions.
    - A JavaScript string is a [string]: the sequence of its UTF-8 bytes.
      Its [length] is the number of its UTF-16 code units, and [trim]
      removes the white space and the line terminators of the whole
      character set, both computed on the bytes. Case mapping and the
      class [\s] of the regular expressions are given on the ASCII range.
    - A JavaScript [Set] built from an array is the array without its
      repeated entries, in insertion order (first occurrence kept); the
      membership test [has] is membership in a [gset].
    - A function that may throw returns a [Completion].
    - [Math.random()], [Date.now()] and the relays' behaviour are inputs of
      the functions that consult them; a sample of [Math.random()] is a
      rational number, and the rounding of the floating-point product is
      not modelled.
    - Numbers are integers ([year], timestamps, counters).
    - Console output is left out. Closing a relay connection and writing
      the state file are taken to succeed. *)

From Stdlib Require Import ZArith QArith Qround Ascii String DecimalString.
From stdpp Require Import base list strings gmap sorting.

Local Open Scope string_scope.
Local Open Scope list_scope.
Local Open Scope nat_scope.

(** ** Characters and strings *)

Module Js.

(** The ASCII members of the regular-expression class [\s], which are also
    the ASCII characters removed by [String.prototype.trim]. *)
Definition is_space (c : ascii) : bool :=
  let n := nat_of_ascii c in
  ((9 <=? n)%nat && (n <=? 13)%nat) || (n =? 32)%nat.

Definition is_upper (c : ascii) : bool :=
  let n := nat_of_ascii c in (65 <=? n)%nat && (n <=? 90)%nat.

Definition lower_char (c : ascii) : ascii :=
  if is_upper c then ascii_of_nat (nat_of_ascii c + 32) else c.

(** [s.toLowerCase()] *)
Fixpoint toLowerCase (s : string) : string :=
  match s with
  | EmptyString => EmptyString
  | String c s' => String (lower_char c) (toLowerCase s')
  end.

(** [s.replace(/[...]/g, '')] for a character class given as a predicate. *)
Fixpoint removeAll (cls : ascii -> bool) (s : string) : string :=
  match s with
  | EmptyString => EmptyString
  | String c s' => if cls c then removeAll cls s' else String c (removeAll cls s')
  end.

(** [s.replace(/\s+/g, sep)]: every maximal run of whitespace becomes
    one copy of [sep]. [in_run] tells that the previous character was
    whitespace. *)
Fixpoint replaceRuns (sep : string) (in_run : bool) (s : string) : string :=
  match s with
  | EmptyString => EmptyString
  | String c s' =>
      if is_space c
      then (if in_run then EmptyString else sep) +:+ replaceRuns sep true s'
      else String c (replaceRuns sep false s')
  end.

(** The value of a byte. *)
Definition code (c : ascii) : N := N_of_ascii c.

(** The characters beyond the ASCII range that [trim] removes, by the
    bytes of their UTF-8 encoding: U+00A0 in two bytes; U+1680, U+2000 to
    U+200A, U+2028, U+2029, U+202F, U+205F, U+3000 and U+FEFF in three. *)
Definition is_space2 (a b : ascii) : bool :=
  (code a =? 194)%N && (code b =? 160)%N.

Definition is_space3 (a b c : ascii) : bool :=
  (code a =? 225)%N && (code b =? 154)%N && (code c =? 128)%N
  || (code a =? 226)%N && (code b =? 128)%N
     && ((128 <=? code c)%N && (code c <=? 138)%N
         || (code c =? 168)%N || (code c =? 169)%N || (code c =? 175)%N)
  || (code a =? 226)%N && (code b =? 129)%N && (code c =? 159)%N
  || (code a =? 227)%N && (code b =? 128)%N && (code c =? 128)%N
  || (code a =? 239)%N && (code b =? 187)%N && (code c =? 191)%N.

(** The string without the white space it starts with. With [backwards]
    the string is read from its end: the bytes of a character then come
    last byte first. *)
Fixpoint skipSpace (backwards : bool) (s : string) : string :=
  match s with
  | EmptyString => EmptyString
  | String a r1 =>
      if is_space a then skipSpace backwards r1
      else match r1 with
           | EmptyString => s
           | String b r2 =>
               if (if backwards then is_space2 b a else is_space2 a b)
               then skipSpace backwards r2
               else match r2 with
                    | EmptyString => s
                    | String c r3 =>
                        if (if backwards then is_space3 c b a else is_space3 a b c)
                        then skipSpace backwards r3
                        else s
                    end
           end
  end.

Definition trimStart (s : string) : string := skipSpace false s.

Definition trimEnd (s : string) : string :=
  String.rev (skipSpace true (String.rev s)).

(** [s.trim()] *)
Definition trim (s : string) : string := trimEnd (trimStart s).

(** [s.length]: the number of UTF-16 code units. A character of one, two
    or three bytes is one unit, a character of four bytes is two; a byte
    that does not start a character is counted as one unit. *)
Definition is_continuation (c : ascii) : bool :=
  (128 <=? code c)%N && (code c <? 192)%N.

Definition is_lead (size : N) (c : ascii) : bool :=
  match size with
  | 2%N => (192 <=? code c)%N && (code c <? 224)%N
  | 3%N => (224 <=? code c)%N && (code c <? 240)%N
  | 4%N => (240 <=? code c)%N && (code c <? 248)%N
  | _ => false
  end.

Fixpoint stringLength (s : string) : nat :=
  match s with
  | EmptyString => 0
  | String a r1 =>
      match r1 with
      | EmptyString => 1
      | String b r2 =>
          if is_lead 2 a && is_continuation b then S (stringLength r2)
          else match r2 with
               | EmptyString => S (stringLength r1)
               | String c r3 =>
                   if is_lead 3 a && is_continuation b && is_continuation c
                   then S (stringLength r3)
                   else match r3 with
                        | EmptyString => S (stringLength r1)
                        | String d r4 =>
                            if is_lead 4 a && is_continuation b
                               && is_continuation c && is_continuation d
                            then S (S (stringLength r4))
                            else S (stringLength r1)
                        end
               end
      end
  end.

(** [s.startsWith(p)] *)
Definition startsWith (s p : string) : bool := String.prefix p s.

(** [s.includes(needle)] *)
Fixpoint includes (s needle : string) : bool :=
  String.prefix needle s ||
  match s with
  | EmptyString => false
  | String _ s' => includes s' needle
  end.

(** [parts.join(sep)] *)
Fixpoint join (sep : string) (parts : list string) : string :=
  match parts with
  | [] => ""
  | [p] => p
  | p :: rest => p +:+ sep +:+ join sep rest
  end.

(** [s.split(',')]: the pieces between the separators; a string without
    a separator is a single piece. *)
Fixpoint splitOn (sep : ascii) (s : string) : list string :=
  match s with
  | EmptyString => [""]
  | String c s' =>
      if Ascii.eqb c sep then "" :: splitOn sep s'
      else match splitOn sep s' with
           | [] => [String c ""]
           | p :: ps => String c p :: ps
           end
  end.

(** [s.endsWith(suffix)] as a proposition. *)
Definition endsWith (s suffix : string) : Prop := ∃ front, s = front +:+ suffix.

(** The decimal rendering of an integer in a template literal. *)
Definition numberToString (n : Z) : string :=
  NilZero.string_of_int (Z.to_int n).

(** [xs.slice(-n)] for [n > 0]: the last [n] entries, all of them when
    there are fewer. *)
Definition sliceLast {A} (n : nat) (xs : list A) : list A :=
  drop (length xs - n) xs.

(** [[...new Set(xs)]]: insertion order, the first occurrence of each
    value kept. [seen] is the content of the set so far. *)
Fixpoint setInsertAll (seen xs : list string) : list string :=
  match xs with
  | [] => seen
  | x :: xs' =>
      if bool_decide (x ∈ seen) then setInsertAll seen xs'
      else setInsertAll (seen ++ [x]) xs'
  end.

Definition uniq (xs : list string) : list string := setInsertAll [] xs.

End Js.

(** ** Hashtag normalisation (bot/index.ts) *)

Definition is_hyphen_or_space (c : ascii) : bool :=
  Ascii.eqb c "-"%char || Js.is_space c.

(** [tag.toLowerCase().replace(/[-\s]/g, '')] *)
Definition normalizeHashtag (tag : string) : string :=
  Js.removeAll is_hyphen_or_space (Js.toLowerCase tag).

(** ** Data model *)

Record Quote := {
  id : string;
  text : string;
  author : string;
  source : option string;   (* [source?: string] *)
  year : option Z;          (* [year?: number] *)
  tags : list string;
}.

Record BotState := {
  recentQuoteIds : list string;
  lastPostTimestamp : Z;
  totalPostsCount : Z;
}.

(** An event tag is a [string[]]; an event carries a [string[][]]. *)
Definition Tag := list string.

Record EventTemplate := {
  t_kind : Z;
  t_created_at : Z;
  t_tags : list Tag;
  t_content : string;
}.

Record NostrEvent := {
  e_id : string;
  e_pubkey : string;
  e_created_at : Z;
  e_kind : Z;
  e_tags : list Tag;
  e_content : string;
  e_sig : string;
}.

(** ** Exceptions *)

(** A thrown value: an [Error] instance with its message, or anything else. *)
Inductive Thrown :=
| ErrorObj (message : string)
| OtherValue.

Inductive Completion (A : Type) :=
| Return (a : A)
| Throw (e : Thrown).
Arguments Return {A} a.
Arguments Throw {A} e.

Definition bind {A B} (c : Completion A) (k : A → Completion B) : Completion B :=
  match c with
  | Return a => k a
  | Throw e => Throw e
  end.

Notation "'let!' x ':=' c 'in' k" := (bind c (fun x => k))
  (at level 10, x name, c at level 100, k at level 200).

Definition throws {A} (c : Completion A) : Prop := ∃ e, c = Throw e.

(** JavaScript truthiness of an optional string and of an optional number. *)
Definition truthy_string (o : option string) : option string :=
  match o with
  | Some s => if String.eqb s "" then None else Some s
  | None => None
  end.

Definition truthy_number (o : option Z) : option Z :=
  match o with
  | Some n => if (n =? 0)%Z then None else Some n
  | None => None
  end.

(** ** The imported library (nostr-tools)

    [nip19.decode], [getPublicKey] and [finalizeEvent] are not code of
    this repository: the functions below take them as an interface. *)

Record Decoded := {
  d_type : string;
  d_data : list Byte.byte;
}.

Class NostrTools := {
  nip19_decode : string → Completion Decoded;
  getPublicKey : list Byte.byte → Completion string;
  finalizeEvent : EventTemplate → list Byte.byte → Completion NostrEvent;
}.

(** ** Node's [Buffer] hex codec *)

Definition hex_value (c : ascii) : option N :=
  let n := N_of_ascii c in
  if (48 <=? n)%N && (n <=? 57)%N then Some (n - 48)%N
  else if (97 <=? n)%N && (n <=? 102)%N then Some (n - 87)%N
  else if (65 <=? n)%N && (n <=? 70)%N then Some (n - 55)%N
  else None.

Definition is_hex (c : ascii) : bool :=
  match hex_value c with Some _ => true | None => false end.

Definition byte_of_nibbles (hi lo : N) : Byte.byte :=
  byte_of_ascii (ascii_of_N (16 * hi + lo)).

(** [Buffer.from(s, 'hex')]: pairs of hex digits are decoded from the
    left; decoding stops at the first pair that is not two hex digits,
    and a trailing single character is dropped. It never throws. *)
Fixpoint Buffer_from_hex (s : string) : list Byte.byte :=
  match s with
  | String a (String b rest) =>
      match hex_value a, hex_value b with
      | Some hi, Some lo => byte_of_nibbles hi lo :: Buffer_from_hex rest
      | _, _ => []
      end
  | _ => []
  end.

Definition hex_digit (n : N) : ascii :=
  if (n <? 10)%N then ascii_of_N (48 + n) else ascii_of_N (87 + n).

(** [Buffer.from(bytes).toString('hex')] *)
Fixpoint Buffer_to_hex (bs : list Byte.byte) : string :=
  match bs with
  | [] => ""
  | b :: bs' =>
      let n := N_of_ascii (ascii_of_byte b) in
      String (hex_digit (n / 16)) (String (hex_digit (n mod 16)) (Buffer_to_hex bs'))
  end.

(** ** The scheduled posting script (bot/index.ts) *)

Module Bot.

Definition DEFAULT_RELAYS : list string :=
  [ "wss://relay.damus.io"; "wss://relay.nostr.band"; "wss://nos.lol";
    "wss://relay.primal.net"; "wss://relay.ditto.pub" ].

(** The number of recent ids checked by [getRandomQuote] and kept by [main]. *)
Definition CAP : nat := 100.

(** *** The state file *)

(** What [STATE_FILE] holds: nothing, something [readFileSync] or
    [JSON.parse] fails on, or a document of [BotState]'s shape. *)
Inductive StateFile :=
| Missing
| Unreadable
| Stored (st : BotState).

Definition emptyState : BotState :=
  {| recentQuoteIds := []; lastPostTimestamp := 0; totalPostsCount := 0 |}.

Definition loadState (f : StateFile) : BotState :=
  match f with
  | Stored st => st
  | Missing | Unreadable => emptyState
  end.

(** [writeFileSync] replaces the whole document. *)
Definition saveState (st : BotState) : StateFile := Stored st.

(** *** The relays, as the script observes them *)

Record Filter := {
  kinds : list Z;
  authors : list string;
  since : Z;
  limit : Z;
}.

(** One pass of the body of the query loop: [Relay.connect] or
    [subscribe] threw, or the subscription delivered these events before
    it was closed. *)
Inductive QueryAttempt :=
| QueryFailed (e : Thrown)
| QueryCollected (events : list NostrEvent).

(** One pass of the body of the publish loop. The race against the
    ten-second timer is lost in [PublishTimedOut]. *)
Inductive PublishAttempt :=
| ConnectFailed (e : Thrown)
| PublishRejected (e : Thrown)
| PublishTimedOut
| PublishConfirmed.

(** The relays' answers, by position in the relay list and URL. *)
Record Network := {
  subscribe : nat → string → Filter → QueryAttempt;
  publish : nat → string → NostrEvent → PublishAttempt;
}.

(** *** getRecentPostedQuoteIds *)

(** [event.tags.find(tag => tag[0] === 'quote_id')], then [tag[1]] when
    it is truthy. *)
Definition quoteIdTag (event : NostrEvent) : option Tag :=
  List.find (λ tag : Tag, bool_decide (tag !! 0%nat = Some "quote_id")) (e_tags event).

Definition quoteIdOf (event : NostrEvent) : option string :=
  match quoteIdTag event with
  | Some tag => truthy_string (tag !! 1%nat)
  | None => None
  end.

Fixpoint queryRelays (net : Network) (filter : Filter) (i : nat)
    (relayUrls : list string) (quoteIds : list string) : list string :=
  match relayUrls with
  | [] => quoteIds
  | url :: rest =>
      match subscribe net i url filter with
      | QueryFailed _ => queryRelays net filter (S i) rest quoteIds
      | QueryCollected events =>
          let quoteIds' := quoteIds ++ omap quoteIdOf events in
          if (0 <? length quoteIds')%nat then quoteIds'
          else queryRelays net filter (S i) rest quoteIds'
      end
  end.

Definition getRecentPostedQuoteIds (net : Network) (now : Z)
    (pubkey : string) (relayUrls : list string) (daysBack : Z) : list string :=
  let since := ((now - daysBack * 24 * 60 * 60 * 1000) / 1000)%Z in
  let filter := {| kinds := [1%Z]; authors := [pubkey]; since := since; limit := 100 |} in
  Js.uniq (queryRelays net filter 0 relayUrls []).

(** *** getRandomQuote *)

(** [Math.floor(r * n)] for a sample [r] of [Math.random()]. *)
Definition randomIndex (r : Q) (n : nat) : nat :=
  Z.to_nat (Qfloor (r * inject_Z (Z.of_nat n))).

(** The result is [None] where the script's is [undefined]. One sample
    serves both calls of [Math.random()]: only one of them is reached. *)
Definition getRandomQuote (quotes : list Quote) (net : Network) (now : Z) (r : Q)
    (recentIds : list string) (pubkey : string) (relayUrls : list string)
    : option Quote :=
  let nostrQuoteIds := getRecentPostedQuoteIds net now pubkey relayUrls 30 in
  let allRecentIds := Js.uniq (recentIds ++ nostrQuoteIds) in
  let recentSet : gset string := list_to_set (Js.sliceLast 100 allRecentIds) in
  let availableQuotes := filter (λ q, id q ∉ recentSet) quotes in
  if (length availableQuotes =? 0)%nat
  then quotes !! randomIndex r (length quotes)
  else availableQuotes !! randomIndex r (length availableQuotes).

(** *** formatQuote and generateTags *)

Definition attribution (quote : Quote) : string :=
  match truthy_string (source quote), truthy_number (year quote) with
  | Some s, Some y => " (" +:+ s +:+ ", " +:+ Js.numberToString y +:+ ")"
  | Some s, None => " (" +:+ s +:+ ")"
  | None, Some y => " (" +:+ Js.numberToString y +:+ ")"
  | None, None => ""
  end.

Definition newline2 : string := String "010" (String "010" "").
Definition dquote : string := String "034" "".

(** The em dash U+2014, in UTF-8. *)
Definition emdash : string := String "226" (String "128" (String "148" "")).

Definition formatQuote (quote : Quote) : string :=
  let content := dquote +:+ text quote +:+ dquote in
  let content := content +:+ newline2 +:+ emdash +:+ " " +:+ author quote in
  let content := content +:+ attribution quote in
  if (0 <? length (tags quote))%nat then
    let normalizedTags := map normalizeHashtag (tags quote) in
    content +:+ newline2 +:+ Js.join " " (map (λ t, "#" +:+ t) normalizedTags)
  else content.

Definition generateTags (quote : Quote) : list Tag :=
  let tags1 := map (λ tag, ["t"; normalizeHashtag tag]) (tags quote) in
  let authorTag := normalizeHashtag (author quote) in
  tags1 ++ [["t"; authorTag]] ++ [["quote_id"; id quote]]
        ++ [["client"; "Cypherpunk Quotes Bot"]].

(** *** parsePrivateKey *)

Definition parsePrivateKey `{NostrTools} (keyStr : string) : Completion (list Byte.byte) :=
  let keyStr := Js.trim keyStr in
  if Js.startsWith keyStr "nsec1" then
    let! decoded := nip19_decode keyStr in
    if negb (String.eqb (d_type decoded) "nsec")
    then Throw (ErrorObj "Invalid nsec key")
    else Return (d_data decoded)
  else if negb (Js.stringLength keyStr =? 64)%nat
  then Throw (ErrorObj "Invalid hex private key length")
  else Return (Buffer_from_hex keyStr).

(** *** publishToRelays *)

Record RelayOutcome := {
  relay : string;
  success : bool;
  error : option string;
}.

(** [error instanceof Error ? error.message : 'Unknown error'] *)
Definition messageOf (e : Thrown) : string :=
  match e with
  | ErrorObj message => message
  | OtherValue => "Unknown error"
  end.

(** The [catch] block of the publish loop. *)
Definition caught (url : string) (e : Thrown) : RelayOutcome :=
  let message := messageOf e in
  if Js.includes (Js.toLowerCase message) "duplicate"
  then {| relay := url; success := true; error := None |}
  else {| relay := url; success := false; error := Some message |}.

(** What one pass of the loop body pushes on [results]. *)
Definition relayOutcome (url : string) (a : PublishAttempt) : RelayOutcome :=
  match a with
  | PublishConfirmed => {| relay := url; success := true; error := None |}
  | ConnectFailed e | PublishRejected e => caught url e
  | PublishTimedOut => caught url (ErrorObj "Timeout waiting for relay confirmation")
  end.

Fixpoint publishLoop (net : Network) (event : NostrEvent) (i : nat)
    (relayUrls : list string) (results : list RelayOutcome) : list RelayOutcome :=
  match relayUrls with
  | [] => results
  | url :: rest =>
      publishLoop net event (S i) rest
        (results ++ [relayOutcome url (publish net i url event)])
  end.

Definition relayResults (net : Network) (event : NostrEvent)
    (relayUrls : list string) : list RelayOutcome :=
  publishLoop net event 0 relayUrls [].

Definition successCount (results : list RelayOutcome) : nat :=
  length (filter (λ r, success r = true) results).

Definition publishToRelays (net : Network) (event : NostrEvent)
    (relayUrls : list string) : Completion unit :=
  let results := relayResults net event relayUrls in
  if (successCount results =? 0)%nat
  then Throw (ErrorObj "Failed to publish to any relay")
  else Return tt.

(** *** main *)

(** Everything one invocation reads from its surroundings. *)
Record Run := {
  env_NOSTR_PRIVATE_KEY : option string;
  env_RELAYS : option string;
  stateFile : StateFile;
  quotesData : list Quote;
  network : Network;
  generatedKey : list Byte.byte;   (* [generateSecretKey()] *)
  random : Q;                      (* [Math.random()] *)
  now_query : Z;                   (* [Date.now()] in the history query *)
  now_event : Z;                   (* [Date.now()] for [created_at] *)
  now_saved : Z;                   (* [Date.now()] for [lastPostTimestamp] *)
}.

(** The values [main] holds when it reaches [publishToRelays]. *)
Record Prepared := {
  p_state : BotState;
  p_relays : list string;
  p_quote : Quote;
  p_event : NostrEvent;
}.

(** [main] up to, and without, the call of [publishToRelays]. *)
Definition prepare `{NostrTools} (run : Run) : Completion Prepared :=
  let privateKeyStr :=
    match truthy_string (env_NOSTR_PRIVATE_KEY run) with
    | Some k => k
    | None => Buffer_to_hex (generatedKey run)
    end in
  let! secretKey := parsePrivateKey privateKeyStr in
  let! pubkey := getPublicKey secretKey in
  let state := loadState (stateFile run) in
  let relays :=
    match truthy_string (env_RELAYS run) with
    | Some rs => map Js.trim (Js.splitOn "," rs)
    | None => DEFAULT_RELAYS
    end in
  match getRandomQuote (quotesData run) (network run) (now_query run) (random run)
          (recentQuoteIds state) pubkey relays with
  | None => Throw (ErrorObj "Cannot read properties of undefined (reading 'author')")
  | Some quote =>
      let content := formatQuote quote in
      let tags := generateTags quote in
      let eventTemplate :=
        {| t_kind := 1; t_created_at := (now_event run / 1000)%Z;
           t_tags := tags; t_content := content |} in
      let! event := finalizeEvent eventTemplate secretKey in
      Return {| p_state := state; p_relays := relays; p_quote := quote; p_event := event |}
  end.

(** The update of [state] after the publication. *)
Definition recordPost (now : Z) (state : BotState) (quote : Quote) : BotState :=
  let ids := recentQuoteIds state ++ [id quote] in
  {| recentQuoteIds := if (100 <? length ids)%nat then Js.sliceLast 100 ids else ids;
     lastPostTimestamp := now;
     totalPostsCount := (totalPostsCount state + 1)%Z |}.

(** How a run ends: normally or with the error that reaches
    [main().catch], and what the state file holds then. *)
Record RunResult := {
  outcome : Completion unit;
  fileAfter : StateFile;
}.

Definition main `{NostrTools} (run : Run) : RunResult :=
  match prepare run with
  | Throw e => {| outcome := Throw e; fileAfter := stateFile run |}
  | Return p =>
      match publishToRelays (network run) (p_event p) (p_relays p) with
      | Throw e => {| outcome := Throw e; fileAfter := stateFile run |}
      | Return _ =>
          let state := recordPost (now_saved run) (p_state p) (p_quote p) in
          {| outcome := Return tt; fileAfter := saveState state |}
      end
  end.

End Bot.

(** ** The dashboard (src/lib/quotes.ts, src/lib/botService.ts) *)

Module Dashboard.

Record BotConfig := {
  relays : list string;
  intervalHours : Z;
  hashtags : list string;
}.

Definition DEFAULT_BOT_CONFIG : BotConfig :=
  {| relays := Bot.DEFAULT_RELAYS; intervalHours := 8;
     hashtags := ["cypherpunk"; "bitcoin"; "privacy"; "freedom"] |}.

(** The number of recent ids kept by [recordPostedQuote]. *)
Definition CAP : nat := 50.

(** [recordPostedQuote], from the state [getBotState] returned to the
    state handed to [saveBotState]. *)
Definition recordPostedQuote (now : Z) (state : BotState) (quoteId : string) : BotState :=
  {| recentQuoteIds := Js.sliceLast 50 (recentQuoteIds state ++ [quoteId]);
     lastPostTimestamp := now;
     totalPostsCount := (totalPostsCount state + 1)%Z |}.

(** [includes] on an array of strings. *)
Definition arrayIncludes (xs : list string) (x : string) : bool := bool_decide (x ∈ xs).

Definition generateQuoteTags (quote : Quote) (config : BotConfig) : list Tag :=
  let tags1 := map (λ tag, ["t"; tag]) (hashtags config) in
  let tags2 := map (λ tag, ["t"; tag])
                 (filter (λ tag, arrayIncludes (hashtags config) tag = false) (tags quote)) in
  let authorTag := Js.replaceRuns "-" false (Js.toLowerCase (author quote)) in
  tags1 ++ tags2 ++ [["t"; authorTag]] ++ [["client"; "Cypherpunk Quotes Bot"]].

(** What the template literal of [formatQuoteForNostr] holds between the
    newlines and the author: the characters U+00E2, U+20AC and U+201D in
    UTF-8, where bot/index.ts has the em dash. *)
Definition dash : string :=
  String "195" (String "162" (String "226" (String "130" (String "172"
    (String "226" (String "128" (String "157" ""))))))).

Definition formatQuoteForNostr (quote : Quote) : string :=
  let content := Bot.dquote +:+ text quote +:+ Bot.dquote in
  let content := content +:+ Bot.newline2 +:+ dash +:+ " " +:+ author quote in
  content +:+ Bot.attribution quote.

Definition formatQuoteWithHashtags (quote : Quote) (config : BotConfig) : string :=
  let content := formatQuoteForNostr quote in
  let allTags := Js.uniq (hashtags config ++ take 3 (tags quote)) in
  let hashtagString := Js.join " " (map (λ t, "#" +:+ t) allTags) in
  content +:+ Bot.newline2 +:+ hashtagString.

End Dashboard.

(** ** Sample data *)

Definition hughes : Quote :=
  {| id := "hughes-1993-001";
     text := "Privacy is necessary...";
     author := "Eric Hughes";
     source := Some "A Cypherpunk's Manifesto";
     year := Some 1993%Z;
     tags := ["privacy"; "manifesto"] |}.

(** A quote without topic tags. *)
Definition untagged : Quote :=
  {| id := "may-1988-001";
     text := "Arise";
     author := "Tim May";
     source := None;
     year := None;
     tags := [] |}.

Definition sampleEvent : NostrEvent :=
  {| e_id := "4376c65d2f232afb"; e_pubkey := "79be667ef9dcbbac";
     e_created_at := 1700000000; e_kind := 1;
     e_tags := Bot.generateTags hughes;
     e_content := Bot.formatQuote hughes;
     e_sig := "908a15e46fb4d8cd" |}.

(** Relays of which the first reports the event as a duplicate and the
    others do not answer in time; no relay has earlier posts. *)
Definition duplicateNet : Bot.Network :=
  {| Bot.subscribe := λ _ _ _, Bot.QueryCollected [];
     Bot.publish := λ i _ _,
       match i with
       | 0 => Bot.PublishRejected (ErrorObj "event already exists (duplicate)")
       | _ => Bot.PublishTimedOut
       end |}.

(** Relays of which the first refuses the event and the others accept it. *)
Definition partialNet : Bot.Network :=
  {| Bot.subscribe := λ _ _ _, Bot.QueryFailed OtherValue;
     Bot.publish := λ i _ _,
       match i with
       | 0 => Bot.PublishRejected (ErrorObj "blocked: rate limited")
       | _ => Bot.PublishConfirmed
       end |}.

(** Relays that cannot be reached. *)
Definition deadNet : Bot.Network :=
  {| Bot.subscribe := λ _ _ _, Bot.QueryFailed (ErrorObj "connection refused");
     Bot.publish := λ _ _ _, Bot.ConnectFailed (ErrorObj "connection refused") |}.

(** Relays of which the first cannot be queried and the others hold one
    earlier post, of the quote hughes-1993-001; all accept a new event. *)
Definition historyNet : Bot.Network :=
  {| Bot.subscribe := λ i _ _,
       match i with
       | 0 => Bot.QueryFailed (ErrorObj "connection refused")
       | _ => Bot.QueryCollected [sampleEvent]
       end;
     Bot.publish := λ _ _ _, Bot.PublishConfirmed |}.

Definition threeRelays : list string := ["wss://a.example"; "wss://b.example"; "wss://c.example"].

Definition sampleHexKey : string :=
  "5a1c0ffee0ddba11deadbeef00112233445566778899aabbccddeeff01234567".

(** Sixty-four characters, none of them a hex digit. *)
Definition notHexKey : string :=
  "zzzzzzzzzzzzzzzzzzzzzzzzzzzzzzzzzzzzzzzzzzzzzzzzzzzzzzzzzzzzzzzz".

(** A stand-in for the imported library, to run the script on examples.
    It knows one encoded key, takes the hex form of the secret key for the
    public key, and copies the template into the event. *)
Definition sampleTools : NostrTools :=
  {| nip19_decode := λ s,
       if String.eqb s "nsec1sample"
       then Return {| d_type := "nsec"; d_data := Buffer_from_hex sampleHexKey |}
       else Throw (ErrorObj "Unknown prefix");
     getPublicKey := λ sk, Return (Buffer_to_hex sk);
     finalizeEvent := λ t sk,
       Return {| e_id := "4376c65d2f232afb"; e_pubkey := Buffer_to_hex sk;
                 e_created_at := t_created_at t; e_kind := t_kind t;
                 e_tags := t_tags t; e_content := t_content t;
                 e_sig := "908a15e46fb4d8cd" |} |}.

Definition sampleState : BotState :=
  {| recentQuoteIds := ["may-1988-001"];
     lastPostTimestamp := 1699971200000;
     totalPostsCount := 1 |}.

(** A run with a key and three relays configured, one earlier post on
    record and a dataset of two quotes, against the relays [net]. *)
Definition sampleRun (net : Bot.Network) : Bot.Run :=
  {| Bot.env_NOSTR_PRIVATE_KEY := Some sampleHexKey;
     Bot.env_RELAYS := Some "wss://a.example, wss://b.example ,wss://c.example";
     Bot.stateFile := Bot.Stored sampleState;
     Bot.quotesData := [untagged; hughes];
     Bot.network := net;
     Bot.generatedKey := [];
     Bot.random := (1 # 2)%Q;
     Bot.now_query := 1700000000123;
     Bot.now_event := 1700000004456;
     Bot.now_saved := 1700000009789 |}.

(** The characters of a string. *)
Definition chars (s : string) : list ascii := list_ascii_of_string s.

(** The hashtag line of a list of hashtags: each with its [#], separated
    by single spaces. *)
Definition hashtagLine (ts : list string) : string :=
  Js.join " " (map (λ t, "#" +:+ t) ts).


(** [msg] contains [word] when the case of its letters is ignored. *)
Definition containsIgnoringCase (msg word : string) : Prop :=
  ∃ pre mid post, msg = pre +:+ mid +:+ post ∧ Js.toLowerCase mid = word.

(** ** The quote library of the dashboard (src/lib/quotes.ts)

    The functions read the dataset through [getAllQuotes]; here it is
    their first argument. *)

Module Quotes.

(** [getRandomQuote()] *)
Definition getRandomQuote (quotes : list Quote) (r : Q) : option Quote :=
  quotes !! Bot.randomIndex r (length quotes).

(** [xs.slice(-n)] for a whole number [n >= 0]: [-0] is [0], so that
    [slice(-0)] is the whole array. *)
Definition sliceFromEnd {A} (n : nat) (xs : list A) : list A :=
  match n with
  | 0 => xs
  | S _ => Js.sliceLast n xs
  end.

(** The default of [maxRecent]. *)
Definition defaultMaxRecent : nat := 20.

Definition getRandomQuoteExcluding (quotes : list Quote) (r : Q)
    (recentIds : list string) (maxRecent : nat) : option Quote :=
  let recentSet : gset string := list_to_set (sliceFromEnd maxRecent recentIds) in
  let availableQuotes := filter (λ q, id q ∉ recentSet) quotes in
  if (length availableQuotes =? 0)
  then getRandomQuote quotes r
  else availableQuotes !! Bot.randomIndex r (length availableQuotes).

Definition getQuotesByAuthor (quotes : list Quote) (name : string) : list Quote :=
  filter (λ q, Js.includes (Js.toLowerCase (author q)) (Js.toLowerCase name) = true) quotes.

Definition getQuotesByTag (quotes : list Quote) (tag : string) : list Quote :=
  filter (λ q, existsb (λ t, String.eqb (Js.toLowerCase t) (Js.toLowerCase tag)) (tags q)
               = true) quotes.

(** [Array.from(set).sort()]: the default order of [sort] on strings,
    which compares them character by character. *)
Definition sortStrings (xs : list string) : list string := merge_sort String.le xs.

Definition getAllAuthors (quotes : list Quote) : list string :=
  sortStrings (Js.uniq (map author quotes)).

Definition getAllTags (quotes : list Quote) : list string :=
  sortStrings (Js.uniq (concat (map tags quotes))).

Definition matchesQuery (lowerQuery : string) (q : Quote) : bool :=
  Js.includes (Js.toLowerCase (text q)) lowerQuery
  || Js.includes (Js.toLowerCase (author q)) lowerQuery
  || existsb (λ t, Js.includes (Js.toLowerCase t) lowerQuery) (tags q).

Definition searchQuotes (quotes : list Quote) (query : string) : list Quote :=
  let lowerQuery := Js.toLowerCase query in
  filter (λ q, matchesQuery lowerQuery q = true) quotes.

End Quotes.

(** ** The dashboard's state and configuration (src/lib/botService.ts) *)

Module Service.

(** What [localStorage] holds under a key: nothing, a text [JSON.parse]
    fails on, or a document. A document under the state key has the shape
    of [BotState]; a document under the configuration key has some of the
    fields of [BotConfig]. *)
Inductive Item (A : Type) :=
| NoItem
| BadItem
| GoodItem (a : A).
Arguments NoItem {A}.
Arguments BadItem {A}.
Arguments GoodItem {A} a.

Record StoredConfig := {
  s_relays : option (list string);
  s_intervalHours : option Z;
  s_hashtags : option (list string);
}.

Record LocalStorage := {
  stateItem : Item BotState;        (* 'cypherpunk-bot:state' *)
  configItem : Item StoredConfig;   (* 'cypherpunk-bot:config' *)
}.

(** The browser, or [None] where [window] is undefined. *)
Definition Window := option LocalStorage.

Definition zeroState : BotState :=
  {| recentQuoteIds := []; lastPostTimestamp := 0; totalPostsCount := 0 |}.

Definition getBotState (w : Window) : BotState :=
  match w with
  | None => zeroState
  | Some ls =>
      match stateItem ls with
      | GoodItem st => st
      | BadItem | NoItem => zeroState
      end
  end.

Definition saveBotState (w : Window) (state : BotState) : Window :=
  match w with
  | None => None
  | Some ls => Some {| stateItem := GoodItem state; configItem := configItem ls |}
  end.

(** [{ ...DEFAULT_BOT_CONFIG, ...JSON.parse(stored) }] *)
Definition overDefaults (c : StoredConfig) : Dashboard.BotConfig :=
  {| Dashboard.relays :=
       default (Dashboard.relays Dashboard.DEFAULT_BOT_CONFIG) (s_relays c);
     Dashboard.intervalHours :=
       default (Dashboard.intervalHours Dashboard.DEFAULT_BOT_CONFIG) (s_intervalHours c);
     Dashboard.hashtags :=
       default (Dashboard.hashtags Dashboard.DEFAULT_BOT_CONFIG) (s_hashtags c) |}.

Definition getBotConfig (w : Window) : Dashboard.BotConfig :=
  match w with
  | None => Dashboard.DEFAULT_BOT_CONFIG
  | Some ls =>
      match configItem ls with
      | GoodItem c => overDefaults c
      | BadItem | NoItem => Dashboard.DEFAULT_BOT_CONFIG
      end
  end.

(** A property of a [Partial<BotConfig>]: not there, there with the value
    [undefined], or there with a value. *)
Inductive Field (A : Type) :=
| Absent
| Undefined
| Present (a : A).
Arguments Absent {A}.
Arguments Undefined {A}.
Arguments Present {A} a.

Record PartialConfig := {
  f_relays : Field (list string);
  f_intervalHours : Field Z;
  f_hashtags : Field (list string);
}.

(** One property of [{ ...current, ...config }] after [JSON.stringify],
    which leaves out a property whose value is [undefined]. *)
Definition written {A} (current : A) (f : Field A) : option A :=
  match f with
  | Absent => Some current
  | Undefined => None
  | Present a => Some a
  end.

Definition saveBotConfig (w : Window) (config : PartialConfig) : Window :=
  match w with
  | None => None
  | Some ls =>
      let current := getBotConfig w in
      Some {| stateItem := stateItem ls;
              configItem := GoodItem
                {| s_relays := written (Dashboard.relays current) (f_relays config);
                   s_intervalHours :=
                     written (Dashboard.intervalHours current) (f_intervalHours config);
                   s_hashtags := written (Dashboard.hashtags current) (f_hashtags config) |} |}
  end.

(** [recordPostedQuote], on the storage. *)
Definition recordPostedQuote (w : Window) (now : Z) (quoteId : string) : Window :=
  saveBotState w (Dashboard.recordPostedQuote now (getBotState w) quoteId).

Definition shouldPost (w : Window) (now : Z) (intervalHours : Z) : bool :=
  let state := getBotState w in
  let intervalMs := (intervalHours * 60 * 60 * 1000)%Z in
  (intervalMs <=? now - lastPostTimestamp state)%Z.

Record TimeLeft := {
  hours : Z;
  minutes : Z;
  seconds : Z;
  canPostNow : bool;
}.

Definition getTimeUntilNextPost (w : Window) (now : Z) (intervalHours : Z) : TimeLeft :=
  let state := getBotState w in
  let intervalMs := (intervalHours * 60 * 60 * 1000)%Z in
  let nextPostTime := (lastPostTimestamp state + intervalMs)%Z in
  let remaining := Z.max 0 (nextPostTime - now) in
  {| hours := (remaining / (60 * 60 * 1000))%Z;
     minutes := ((remaining mod (60 * 60 * 1000)) / (60 * 1000))%Z;
     seconds := ((remaining mod (60 * 1000)) / 1000)%Z;
     canPostNow := (remaining =? 0)%Z |}.

End Service.

(** ** The posting hook (src/hooks/usePostQuote.ts) *)

Module PostQuote.

(** What the hook hands to [createEvent]. *)
Record EventDraft := {
  draft_kind : Z;
  draft_content : string;
  draft_tags : list Tag;
}.

(** [mutationFn]: its result, and the storage it leaves. [createEvent] is
    the publishing hook, which signs and sends the draft or throws. *)
Definition mutationFn (createEvent : EventDraft → Completion unit)
    (w : Service.Window) (now : Z) (quote : Quote) (includeHashtags : bool)
    : Completion (Quote * string) * Service.Window :=
  let config := Service.getBotConfig w in
  let content := Dashboard.formatQuoteForNostr quote in
  let content :=
    if includeHashtags then
      let allTags := Js.uniq (Dashboard.hashtags config ++ take 3 (tags quote)) in
      let hashtagString := Js.join " " (map (λ t, "#" +:+ t) allTags) in
      content +:+ Bot.newline2 +:+ hashtagString
    else content in
  let tags := Dashboard.generateQuoteTags quote config in
  match createEvent {| draft_kind := 1; draft_content := content; draft_tags := tags |} with
  | Throw e => (Throw e, w)
  | Return _ => (Return (quote, content), Service.recordPostedQuote w now (id quote))
  end.

End PostQuote.

(** ** The environment of the script *)

(** The relay list of [main]: [RELAYS], split at the commas, each piece
    trimmed, or the built-in list. *)
Definition configuredRelays (RELAYS : option string) : list string :=
  match truthy_string RELAYS with
  | Some rs => map Js.trim (Js.splitOn "," rs)
  | None => Bot.DEFAULT_RELAYS
  end.

(** The scheduler starts [main] again and again; each run finds the state
    file as the run before left it. *)
Definition withStateFile (f : Bot.StateFile) (run : Bot.Run) : Bot.Run :=
  {| Bot.env_NOSTR_PRIVATE_KEY := Bot.env_NOSTR_PRIVATE_KEY run;
     Bot.env_RELAYS := Bot.env_RELAYS run;
     Bot.stateFile := f;
     Bot.quotesData := Bot.quotesData run;
     Bot.network := Bot.network run;
     Bot.generatedKey := Bot.generatedKey run;
     Bot.random := Bot.random run;
     Bot.now_query := Bot.now_query run;
     Bot.now_event := Bot.now_event run;
     Bot.now_saved := Bot.now_saved run |}.

Definition succeeded (result : Bot.RunResult) : bool :=
  match Bot.outcome result with
  | Return _ => true
  | Throw _ => false
  end.

(** The state file after the runs, and how many of them ended normally. *)
Fixpoint schedule `{NostrTools} (f : Bot.StateFile) (runs : list Bot.Run)
    : Bot.StateFile * nat :=
  match runs with
  | [] => (f, 0)
  | run :: rest =>
      let result := Bot.main (withStateFile f run) in
      let '(f', n) := schedule (Bot.fileAfter result) rest in
      (f', if succeeded result then S n else n)
  end.

(** ** The statistics of the dashboard (src/lib/quotes.ts, getQuoteStats) *)

Module Stats.

(** The property names every object inherits from [Object.prototype]. For
    such a name [quotesByAuthor[name]] is not [undefined] on the empty
    object, and [(quotesByAuthor[name] || 0) + 1] is not a number. *)
Definition inheritedNames : list string :=
  [ "constructor"; "hasOwnProperty"; "isPrototypeOf"; "propertyIsEnumerable";
    "toLocaleString"; "toString"; "valueOf"; "__proto__";
    "__defineGetter__"; "__defineSetter__"; "__lookupGetter__"; "__lookupSetter__" ].

(** [(quotesByAuthor[a] || 0) + 1] for a name that is not inherited. *)
Definition bump (m : gmap string nat) (a : string) : nat :=
  match m !! a with
  | Some n => (if n =? 0 then 0 else n) + 1
  | None => 0 + 1
  end.

(** The [forEach] loop over the quotes. *)
Fixpoint countByAuthor (quotes : list Quote) (quotesByAuthor : gmap string nat)
    : gmap string nat :=
  match quotes with
  | [] => quotesByAuthor
  | q :: rest => countByAuthor rest (<[author q := bump quotesByAuthor (author q)]> quotesByAuthor)
  end.

Record QuoteStats := {
  totalQuotes : nat;
  totalAuthors : nat;
  totalTags : nat;
  quotesByAuthor : gmap string nat;
}.

(** [getQuoteStats()]. The result is [None] when an author has an
    inherited name: the entry of that author is then no count. *)
Definition getQuoteStats (quotes : list Quote) : option QuoteStats :=
  if bool_decide (Exists (λ q, author q ∈ inheritedNames) quotes) then None
  else Some {| totalQuotes := length quotes;
               totalAuthors := length (Quotes.getAllAuthors quotes);
               totalTags := length (Quotes.getAllTags quotes);
               quotesByAuthor := countByAuthor quotes ∅ |}.

End Stats.

(** A string of whitespace, and a string without a comma. *)
Definition spaces (s : string) : Prop := Forall (λ c, Js.is_space c = true) (chars s).
Definition no_comma (s : string) : Prop := Forall (λ c, Ascii.eqb c "," = false) (chars s).

(** ** More sample data *)

Definition barlow : Quote :=
  {| id := "barlow-1996-001";
     text := "We are creating a world that all may enter.";
     author := "John Perry Barlow";
     source := Some "A Declaration of the Independence of Cyberspace";
     year := Some 1996%Z;
     tags := ["Cyberspace"; "open-source"; "freedom"; "manifesto"] |}.

(** A hundred ids that no quote of the samples has. *)
(** The number of quotes of an author. *)
Definition quotesOf (a : string) (quotes : list Quote) : nat :=
  length (filter (λ q, author q = a) quotes).

(** The normalisation as the specification words it: lowercase, then
    strip white space and hyphens. A letter is lower-cased by its place in
    the alphabet; the characters stripped are the hyphen, the space, the
    tab, the line feed, the vertical tab, the form feed and the carriage
    return. *)
Definition upperLetters : list ascii := chars "ABCDEFGHIJKLMNOPQRSTUVWXYZ".
Definition lowerLetters : list ascii := chars "abcdefghijklmnopqrstuvwxyz".

Fixpoint replaceLetter (from to : list ascii) (c : ascii) : ascii :=
  match from, to with
  | f :: from', t :: to' => if Ascii.eqb c f then t else replaceLetter from' to' c
  | _, _ => c
  end.

Definition lowercase (c : ascii) : ascii := replaceLetter upperLetters lowerLetters c.

Definition strippedChars : list ascii :=
  ["-"; " "; "009"; "010"; "011"; "012"; "013"]%char.

Definition normalized (x : string) : list ascii :=
  filter (λ c, c ∉ strippedChars) (map lowercase (chars x)).

(** A string of ASCII characters. *)
Definition is_ascii (s : string) : Prop :=
  Forall (λ c, (Js.code c < 128)%N) (chars s).

(** Sixty-three hex digits and the letter U+00E9: sixty-four code units in
    sixty-five bytes. *)
Definition accentedKey : string :=
  "5a1c0ffee0ddba11deadbeef00112233445566778899aabbccddeeff0123456"
  +:+ String "195" (String "169" "").

(** Sixty hex digits and the letter U+00E9 twice: sixty-two code units in
    sixty-four bytes. *)
Definition twiceAccentedKey : string :=
  "5a1c0ffee0ddba11deadbeef00112233445566778899aabbccddeeff0123"
  +:+ String "195" (String "169" (String "195" (String "169" ""))).

(** The key [sampleHexKey] after U+FEFF and before U+00A0. *)
Definition paddedKey : string :=
  String "239" (String "187" (String "191" "")) +:+ sampleHexKey
  +:+ String "194" (String "160" "").

(** Sixty-four characters, the eleventh of which is no hex digit. *)
Definition damagedHexKey : string :=
  "5a1c0ffee0gdba11deadbeef00112233445566778899aabbccddeeff01234567".

Definition hundredIds : list string :=
  map (λ n, "archive-" +:+ NilZero.string_of_uint (Nat.to_uint n)) (seq 0 100).

(** * Properties *)

(** ** Strings *)

(** The string lemmas below compute [+:+] on a string that starts with a
    character. *)
#[local] Arguments String.append !_ _ / : simpl nomatch.

(** A fact about one character is checked on the 256 characters. *)
Ltac by_cases_on c :=
  destruct c as [[] [] [] [] [] [] [] []]; vm_compute;
  try reflexivity; try discriminate; auto.

Section StringFacts.

Lemma lower_char_idem c : Js.lower_char (Js.lower_char c) = Js.lower_char c.
Proof. by_cases_on c. Qed.

Lemma lower_char_not_upper c : Js.is_upper (Js.lower_char c) = false.
Proof. by_cases_on c. Qed.

Lemma stripped_class_lower c :
  is_hyphen_or_space (Js.lower_char c) = is_hyphen_or_space c.
Proof. by_cases_on c. Qed.

Lemma append_assoc (a b c : string) : (a +:+ b) +:+ c = a +:+ (b +:+ c).
Proof. induction a as [|x a IH]; simpl; [reflexivity | now rewrite IH]. Qed.

Lemma append_empty_r (a : string) : a +:+ "" = a.
Proof. induction a as [|x a IH]; simpl; [reflexivity | now rewrite IH]. Qed.

Lemma toLowerCase_app a b :
  Js.toLowerCase (a +:+ b) = Js.toLowerCase a +:+ Js.toLowerCase b.
Proof. induction a as [|x a IH]; simpl; [reflexivity | now rewrite IH]. Qed.

Lemma toLowerCase_idem s : Js.toLowerCase (Js.toLowerCase s) = Js.toLowerCase s.
Proof.
  induction s as [|c s IH]; simpl; [reflexivity|].
  now rewrite lower_char_idem, IH.
Qed.

(** A lower-cased string splits where its image splits. *)
Lemma toLowerCase_split s : ∀ a b,
  Js.toLowerCase s = a +:+ b →
  ∃ s1 s2, s = s1 +:+ s2 ∧ Js.toLowerCase s1 = a ∧ Js.toLowerCase s2 = b.
Proof.
  induction s as [|c s IH]; intros a b E.
  - destruct a; [|discriminate]. exists "", "". simpl in *. auto.
  - destruct a as [|x a]; simpl in E.
    + exists "", (String c s). simpl. auto.
    + injection E as Ex Es. destruct (IH _ _ Es) as (s1 & s2 & -> & <- & <-).
      exists (String c s1), s2. simpl. now rewrite Ex.
Qed.

Lemma removeAll_app cls a b :
  Js.removeAll cls (a +:+ b) = Js.removeAll cls a +:+ Js.removeAll cls b.
Proof.
  induction a as [|x a IH]; simpl; [reflexivity|].
  destruct (cls x); simpl; now rewrite IH.
Qed.

Lemma removeAll_idem cls s : Js.removeAll cls (Js.removeAll cls s) = Js.removeAll cls s.
Proof.
  induction s as [|c s IH]; simpl; [reflexivity|].
  destruct (cls c) eqn:E; simpl; [assumption|]. now rewrite E, IH.
Qed.

Lemma removeAll_chars cls s : Forall (λ c, cls c = false) (chars (Js.removeAll cls s)).
Proof.
  induction s as [|c s IH]; simpl; [constructor|].
  destruct (cls c) eqn:E; simpl; [assumption | now constructor].
Qed.

(** Lower-casing and the removal of hyphens and whitespace commute. *)
Lemma toLowerCase_stripped s :
  Js.toLowerCase (Js.removeAll is_hyphen_or_space s)
  = Js.removeAll is_hyphen_or_space (Js.toLowerCase s).
Proof.
  induction s as [|c s IH]; simpl; [reflexivity|].
  rewrite stripped_class_lower.
  destruct (is_hyphen_or_space c); simpl; now rewrite IH.
Qed.

Lemma normalizeHashtag_app a b :
  normalizeHashtag (a +:+ b) = normalizeHashtag a +:+ normalizeHashtag b.
Proof. unfold normalizeHashtag. now rewrite toLowerCase_app, removeAll_app. Qed.

Lemma normalizeHashtag_no_upper s :
  Forall (λ c, Js.is_upper c = false) (chars (normalizeHashtag s)).
Proof.
  unfold normalizeHashtag.
  induction s as [|c s IH]; simpl; [constructor|].
  destruct (is_hyphen_or_space _); simpl; [assumption|].
  constructor; [apply lower_char_not_upper | assumption].
Qed.

End StringFacts.

(** The case mapping and the stripped class of the script are those of
    the specification. *)
Lemma lower_char_lowercase c : Js.lower_char c = lowercase c.
Proof. destruct c as [[] [] [] [] [] [] [] []]; vm_compute; reflexivity. Qed.

Lemma is_hyphen_or_space_stripped c :
  is_hyphen_or_space c = negb (bool_decide (c ∉ strippedChars)).
Proof. destruct c as [[] [] [] [] [] [] [] []]; vm_compute; reflexivity. Qed.

Lemma normalizeHashtag_normalized x : chars (normalizeHashtag x) = normalized x.
Proof.
  unfold normalizeHashtag, normalized, chars.
  induction x as [|c x IH]; [reflexivity|].
  cbn [Js.toLowerCase Js.removeAll list_ascii_of_string map].
  rewrite filter_cons, <- lower_char_lowercase, is_hyphen_or_space_stripped.
  destruct (decide (Js.lower_char c ∉ strippedChars)) as [Hc | Hc].
  - rewrite (bool_decide_eq_true_2 _ Hc). cbn [negb list_ascii_of_string].
    now rewrite IH.
  - rewrite (bool_decide_eq_false_2 _ Hc). cbn [negb]. exact IH.
Qed.

(** C9: hashtag normalisation is idempotent. It lowercases and strips: the
    result for a tag of ASCII characters is the tag with every letter
    lower-cased and without its hyphens and white space, in the order of
    the tag. The result holds no upper-case letter, no hyphen and no
    white space, and "open-source" and "open source" both become
    "opensource". *)
Theorem normalizeHashtag_idempotent :
  (∀ x, normalizeHashtag (normalizeHashtag x) = normalizeHashtag x)
  ∧ (∀ x, is_ascii x → chars (normalizeHashtag x) = normalized x)
  ∧ (∀ x, Forall (λ c, Js.is_upper c = false ∧ c ≠ "-"%char ∧ Js.is_space c = false)
            (chars (normalizeHashtag x)))
  ∧ normalizeHashtag "open-source" = "opensource"
  ∧ normalizeHashtag "open source" = "opensource"
  ∧ normalizeHashtag "Eric Hughes" = "erichughes".
Proof.
  split; [|split; [|split; [|repeat split; reflexivity]]].
  - intros x. unfold normalizeHashtag.
    now rewrite toLowerCase_stripped, toLowerCase_idem, removeAll_idem.
  - intros x _. apply normalizeHashtag_normalized.
  - intros x.
    pose proof (normalizeHashtag_no_upper x) as Hup.
    pose proof (removeAll_chars is_hyphen_or_space (Js.toLowerCase x)) as Hcls.
    fold (normalizeHashtag x) in Hcls.
    rewrite Forall_forall in Hup, Hcls. apply Forall_forall. intros c Hc.
    specialize (Hup c Hc). specialize (Hcls c Hc). simpl in Hup, Hcls.
    unfold is_hyphen_or_space in Hcls. apply orb_false_iff in Hcls as [Hh Hs].
    repeat split; try assumption.
    intros ->. discriminate Hh.
Qed.

(** ** Composition *)

Example formatQuote_hughes :
  Bot.formatQuote hughes
  = Bot.dquote +:+ "Privacy is necessary..." +:+ Bot.dquote +:+ Bot.newline2
    +:+ Bot.emdash +:+ " Eric Hughes (A Cypherpunk's Manifesto, 1993)"
    +:+ Bot.newline2 +:+ "#privacy #manifesto".
Proof. reflexivity. Qed.

Example generateTags_hughes :
  Bot.generateTags hughes
  = [ ["t"; "privacy"]; ["t"; "manifesto"]; ["t"; "erichughes"];
      ["quote_id"; "hughes-1993-001"]; ["client"; "Cypherpunk Quotes Bot"] ].
Proof. reflexivity. Qed.

(** C8: the script composes the quote hughes-1993-001 to a content that
    ends in two newlines and "#privacy #manifesto", and to a tag list that
    holds the two topic tags, the author tag, the quote_id tag and the
    client tag. *)
Theorem compose_hughes :
  Js.endsWith (Bot.formatQuote hughes) (Bot.newline2 +:+ "#privacy #manifesto")
  ∧ ["t"; "privacy"] ∈ Bot.generateTags hughes
  ∧ ["t"; "manifesto"] ∈ Bot.generateTags hughes
  ∧ ["t"; "erichughes"] ∈ Bot.generateTags hughes
  ∧ ["quote_id"; "hughes-1993-001"] ∈ Bot.generateTags hughes
  ∧ ["client"; "Cypherpunk Quotes Bot"] ∈ Bot.generateTags hughes.
Proof.
  split.
  - eexists. rewrite formatQuote_hughes.
    rewrite <- !append_assoc. reflexivity.
  - rewrite generateTags_hughes. repeat split; set_solver.
Qed.

(** The names of the tags the dashboard emits. *)
Lemma generateQuoteTags_names quote config tag :
  tag ∈ Dashboard.generateQuoteTags quote config →
  tag !! 0%nat = Some "t" ∨ tag !! 0%nat = Some "client".
Proof.
  unfold Dashboard.generateQuoteTags.
  rewrite !elem_of_app, !list_elem_of_fmap, !list_elem_of_singleton.
  intros [(x & -> & _) | [(x & -> & _) | [-> | ->]]]; auto.
Qed.

(** C7, as the code has it: the script's generateTags carries the tag
    [quote_id, quote.id] for every quote; the dashboard's generateQuoteTags
    emits tags named t and client only, so none of them is a quote_id tag. *)
Theorem quote_id_tag quote config :
  ["quote_id"; id quote] ∈ Bot.generateTags quote
  ∧ (∀ tag, tag ∈ Dashboard.generateQuoteTags quote config →
            tag !! 0%nat ≠ Some "quote_id").
Proof.
  split.
  - unfold Bot.generateTags. rewrite !elem_of_app, !list_elem_of_singleton. auto.
  - intros tag Htag E.
    destruct (generateQuoteTags_names _ _ _ Htag) as [H | H];
      rewrite H in E; discriminate E.
Qed.

(** C7 fails for the dashboard: its tag list for hughes-1993-001 under the
    default configuration has no quote_id tag. *)
Lemma dashboard_tags_lack_quote_id :
  Dashboard.generateQuoteTags hughes Dashboard.DEFAULT_BOT_CONFIG
  = [ ["t"; "cypherpunk"]; ["t"; "bitcoin"]; ["t"; "privacy"]; ["t"; "freedom"];
      ["t"; "manifesto"]; ["t"; "eric-hughes"]; ["client"; "Cypherpunk Quotes Bot"] ]
  ∧ ["quote_id"; id hughes] ∉ Dashboard.generateQuoteTags hughes Dashboard.DEFAULT_BOT_CONFIG.
Proof.
  split; [reflexivity|].
  intros H. destruct (generateQuoteTags_names _ _ _ H) as [E | E]; discriminate E.
Qed.




(** ** The bound on the history *)

Section History.

Context {A : Type}.
Implicit Types xs : list A.

Lemma sliceLast_length n xs : length (Js.sliceLast n xs) = Nat.min n (length xs).
Proof. unfold Js.sliceLast. rewrite length_drop. lia. Qed.

(** [sliceLast] keeps a suffix: what it drops stands in front of it. *)
Lemma sliceLast_suffix n xs :
  ∃ dropped, xs = dropped ++ Js.sliceLast n xs ∧ length dropped = length xs - n.
Proof.
  exists (take (length xs - n) xs). split.
  - unfold Js.sliceLast. now rewrite take_drop.
  - rewrite length_take. lia.
Qed.

Lemma sliceLast_all n xs : length xs ≤ n → Js.sliceLast n xs = xs.
Proof.
  intros H. unfold Js.sliceLast.
  replace (length xs - n) with 0 by lia. reflexivity.
Qed.

End History.

Lemma recordPost_ids now state quote :
  recentQuoteIds (Bot.recordPost now state quote)
  = Js.sliceLast 100 (recentQuoteIds state ++ [id quote]).
Proof.
  unfold Bot.recordPost. cbn [recentQuoteIds].
  destruct (100 <? _)%nat eqn:E; [reflexivity|].
  apply Nat.ltb_ge in E. now rewrite sliceLast_all.
Qed.

(** C4: the state saved after a post holds at most CAP ids (100 in the
    script, 50 in the dashboard); when the list with the new id appended is
    longer than CAP, exactly its last CAP entries are kept, in their order,
    and the oldest ones are dropped. *)
Theorem saved_history_capped now state quote quoteId :
  let appended := recentQuoteIds state ++ [id quote] in
  let saved := recentQuoteIds (Bot.recordPost now state quote) in
  let appended' := recentQuoteIds state ++ [quoteId] in
  let saved' := recentQuoteIds (Dashboard.recordPostedQuote now state quoteId) in
  (length saved ≤ Bot.CAP
   ∧ (Bot.CAP < length appended →
      length saved = Bot.CAP ∧ ∃ dropped, appended = dropped ++ saved)
   ∧ (length appended ≤ Bot.CAP → saved = appended))
  ∧ (length saved' ≤ Dashboard.CAP
     ∧ (Dashboard.CAP < length appended' →
        length saved' = Dashboard.CAP ∧ ∃ dropped, appended' = dropped ++ saved')
     ∧ (length appended' ≤ Dashboard.CAP → saved' = appended')).
Proof.
  intros appended saved appended' saved'.
  assert (Hs : saved = Js.sliceLast 100 appended) by apply recordPost_ids.
  assert (Hs' : saved' = Js.sliceLast 50 appended') by reflexivity.
  unfold Bot.CAP, Dashboard.CAP. rewrite Hs, Hs'.
  split; (split; [rewrite sliceLast_length; lia | split]).
  - intros H. split; [rewrite sliceLast_length; lia|].
    destruct (sliceLast_suffix 100 appended) as (d & E & _). eauto.
  - apply sliceLast_all.
  - intros H. split; [rewrite sliceLast_length; lia|].
    destruct (sliceLast_suffix 50 appended') as (d & E & _). eauto.
  - apply sliceLast_all.
Qed.

(** ** Publication *)

Lemma prefix_spec p : ∀ s, String.prefix p s = true ↔ ∃ post, s = p +:+ post.
Proof.
  induction p as [|c p IH]; intros s.
  - destruct s; simpl; (split; [intros _; eexists; reflexivity | reflexivity]).
  - destruct s as [|d s]; simpl;
      [split; [discriminate | intros [post E]; discriminate E]|].
    destruct (ascii_dec c d) as [->|Hne].
    + rewrite IH. split; intros [post E]; exists post; simpl in *; congruence.
    + split; [discriminate | intros [post E]; simpl in E; congruence].
Qed.

Lemma includes_spec needle : ∀ s,
  Js.includes s needle = true ↔ ∃ pre post, s = pre +:+ needle +:+ post.
Proof.
  induction s as [|c s IH].
  all: cbn [Js.includes]; rewrite orb_true_iff, prefix_spec.
  - split.
    + intros [[post E] | F]; [|discriminate]. now exists "", post.
    + intros (pre & post & E). left. destruct pre; [|discriminate]. now exists post.
  - rewrite IH. split.
    + intros [[post E] | (pre & post & E)].
      * now exists "", post.
      * exists (String c pre), post. simpl. now rewrite E.
    + intros ([|d pre] & post & E); simpl in E.
      * left. now exists post.
      * right. exists pre, post. congruence.
Qed.

(** The test of the [catch] block is the search for the word with the
    case of the message ignored. *)
Lemma includes_lower_spec message word :
  Js.includes (Js.toLowerCase message) word = true ↔ containsIgnoringCase message word.
Proof.
  rewrite includes_spec. unfold containsIgnoringCase. split.
  - intros (pre & post & E).
    apply toLowerCase_split in E as (s1 & s23 & -> & _ & E).
    apply toLowerCase_split in E as (s2 & s3 & -> & E & _).
    now exists s1, s2, s3.
  - intros (pre & mid & post & -> & <-).
    exists (Js.toLowerCase pre), (Js.toLowerCase post).
    now rewrite !toLowerCase_app.
Qed.

Lemma caught_duplicate url e :
  containsIgnoringCase (Bot.messageOf e) "duplicate" →
  Bot.caught url e = {| Bot.relay := url; Bot.success := true; Bot.error := None |}.
Proof.
  intros H. apply includes_lower_spec in H. unfold Bot.caught. now rewrite H.
Qed.

Lemma caught_other url e :
  ¬ containsIgnoringCase (Bot.messageOf e) "duplicate" →
  Bot.caught url e
  = {| Bot.relay := url; Bot.success := false; Bot.error := Some (Bot.messageOf e) |}.
Proof.
  intros H. unfold Bot.caught.
  destruct (Js.includes _ _) eqn:E; [|reflexivity].
  apply includes_lower_spec in E. contradiction.
Qed.

(** The loop pushes one outcome per relay, in the order of the list. *)
Lemma publishLoop_spec net event : ∀ relayUrls i results,
  Bot.publishLoop net event i relayUrls results
  = results ++ imap (λ j url, Bot.relayOutcome url (Bot.publish net (i + j) url event)) relayUrls.
Proof.
  induction relayUrls as [|url rest IH]; intros i results; simpl.
  - now rewrite app_nil_r.
  - rewrite IH, <- app_assoc. simpl. rewrite Nat.add_0_r. do 2 f_equal.
    apply imap_ext. intros j u _. simpl. now rewrite Nat.add_succ_r.
Qed.

Lemma relayResults_lookup net event relayUrls i url :
  relayUrls !! i = Some url →
  Bot.relayResults net event relayUrls !! i
  = Some (Bot.relayOutcome url (Bot.publish net i url event)).
Proof.
  intros H. unfold Bot.relayResults. rewrite publishLoop_spec. simpl.
  rewrite list_lookup_imap, H. reflexivity.
Qed.

Lemma relayResults_length net event relayUrls :
  length (Bot.relayResults net event relayUrls) = length relayUrls.
Proof.
  unfold Bot.relayResults. rewrite publishLoop_spec. simpl. apply length_imap.
Qed.

Lemma successCount_zero results :
  Bot.successCount results = 0 ↔ ∀ r, r ∈ results → Bot.success r = false.
Proof.
  unfold Bot.successCount. rewrite length_zero_iff_nil. split.
  - intros E r Hr. destruct (Bot.success r) eqn:S; [|reflexivity].
    assert (r ∈ filter (λ r, Bot.success r = true) results) as Hin
      by (apply list_elem_of_filter; auto).
    rewrite E in Hin. inversion Hin.
  - intros H. apply elem_of_nil_inv. intros r Hr.
    apply list_elem_of_filter in Hr as [S Hr]. rewrite (H r Hr) in S. discriminate S.
Qed.

Lemma successCount_pos results r :
  r ∈ results → Bot.success r = true → 0 < Bot.successCount results.
Proof.
  intros Hr S. destruct (Bot.successCount results) eqn:E; [|lia].
  apply successCount_zero with (r := r) in E; [congruence | assumption].
Qed.

(** C5: a relay whose attempt raises an error with a message that contains
    "duplicate", the case of the letters ignored, is recorded as a success
    and counted; an error without the word is recorded as a failure with
    its message. *)
Theorem duplicate_is_success net event relayUrls i url message :
  relayUrls !! i = Some url →
  Bot.publish net i url event = Bot.ConnectFailed (ErrorObj message)
  ∨ Bot.publish net i url event = Bot.PublishRejected (ErrorObj message) →
  let results := Bot.relayResults net event relayUrls in
  (containsIgnoringCase message "duplicate" →
     results !! i = Some {| Bot.relay := url; Bot.success := true; Bot.error := None |}
     ∧ 0 < Bot.successCount results)
  ∧ (¬ containsIgnoringCase message "duplicate" →
     results !! i
     = Some {| Bot.relay := url; Bot.success := false; Bot.error := Some message |}).
Proof.
  intros Hurl Hraised results.
  assert (Hi : results !! i = Some (Bot.caught url (ErrorObj message))).
  { unfold results. rewrite (relayResults_lookup _ _ _ _ _ Hurl).
    destruct Hraised as [-> | ->]; reflexivity. }
  split; intros Hmsg.
  - rewrite caught_duplicate in Hi by exact Hmsg. split; [exact Hi|].
    eapply successCount_pos; [eapply list_elem_of_lookup_2, Hi | reflexivity].
  - rewrite caught_other in Hi by exact Hmsg. exact Hi.
Qed.

(** The message of the specification's example is classified as a success. *)
Lemma duplicate_is_success_example :
  Bot.relayResults duplicateNet sampleEvent threeRelays !! 0
  = Some {| Bot.relay := "wss://a.example"; Bot.success := true; Bot.error := None |}
  ∧ 0 < Bot.successCount (Bot.relayResults duplicateNet sampleEvent threeRelays).
Proof.
  apply (duplicate_is_success duplicateNet sampleEvent threeRelays 0 "wss://a.example"
           "event already exists (duplicate)").
  - reflexivity.
  - right. reflexivity.
  - exists "event already exists (", "duplicate", ")". split; reflexivity.
Defined.

(** C2: publishToRelays throws its error exactly when none of the outcomes,
    one per relay of the list, is a success; with one success or more it
    returns normally. *)
Theorem publish_throws_iff_no_success net event relayUrls :
  let results := Bot.relayResults net event relayUrls in
  length results = length relayUrls
  ∧ (Bot.publishToRelays net event relayUrls
       = Throw (ErrorObj "Failed to publish to any relay")
     ↔ Bot.successCount results = 0)
  ∧ (throws (Bot.publishToRelays net event relayUrls)
     ↔ ∀ r, r ∈ results → Bot.success r = false)
  ∧ (Bot.publishToRelays net event relayUrls = Return tt
     ↔ ∃ r, r ∈ results ∧ Bot.success r = true).
Proof.
  intros results. split; [apply relayResults_length|].
  unfold Bot.publishToRelays, throws. fold results.
  destruct (Nat.eqb_spec (Bot.successCount results) 0) as [E | E].
  - repeat split; try easy.
    + intros _. now apply successCount_zero.
    + intros _. eauto.
    + intros (r & Hr & S). apply successCount_zero with (r := r) in E; congruence.
  - repeat split; try easy.
    + intros [e F]. discriminate F.
    + intros H. exfalso. apply E. now apply successCount_zero.
    + intros _. destruct (Bot.successCount results) eqn:C; [contradiction|].
      unfold Bot.successCount in C.
      destruct (filter _ results) as [|r l] eqn:F; [discriminate C|].
      assert (r ∈ filter (λ r, Bot.success r = true) results) as Hin
        by (rewrite F; left).
      apply list_elem_of_filter in Hin as [S Hr]. eauto.
Qed.

Example partial_success :
  Bot.successCount (Bot.relayResults partialNet sampleEvent threeRelays) = 2
  ∧ length (Bot.relayResults partialNet sampleEvent threeRelays) = 3
  ∧ Bot.publishToRelays partialNet sampleEvent threeRelays = Return tt.
Proof. repeat split; reflexivity. Qed.

Example total_failure :
  Bot.publishToRelays deadNet sampleEvent threeRelays
  = Throw (ErrorObj "Failed to publish to any relay").
Proof. reflexivity. Qed.

(** ** The private key *)

Section CodeUnits.

Lemma is_space_code c : Js.is_space c = true → (Js.code c < 128)%N.
Proof.
  destruct c as [[] [] [] [] [] [] [] []]; vm_compute; intros H;
    first [discriminate H | reflexivity].
Qed.

Lemma is_space2_codes a b :
  Js.is_space2 a b = true → (Js.code a = 194 ∧ Js.code b = 160)%N.
Proof. unfold Js.is_space2. rewrite andb_true_iff, !N.eqb_eq. tauto. Qed.

Lemma is_space3_codes a b c :
  Js.is_space3 a b c = true → (225 ≤ Js.code a ∧ 128 ≤ Js.code b ∧ 128 ≤ Js.code c)%N.
Proof.
  unfold Js.is_space3.
  repeat first [ rewrite orb_true_iff | rewrite andb_true_iff
               | rewrite N.eqb_eq | rewrite N.leb_le ].
  lia.
Qed.

(** A test for a character of several bytes fails when one of the bytes
    is known to be an ASCII character. *)
Ltac no_wide_space :=
  repeat match goal with
  | |- context [Js.is_space2 ?a ?b] =>
      let E := fresh "E" in
      destruct (Js.is_space2 a b) eqn:E; [apply is_space2_codes in E; lia|]
  | |- context [Js.is_space3 ?a ?b ?c] =>
      let E := fresh "E" in
      destruct (Js.is_space3 a b c) eqn:E; [apply is_space3_codes in E; lia|]
  end.

(** The leading characters of a run of white space are ASCII characters. *)
Ltac head_codes H :=
  unfold spaces, chars in H; cbn [list_ascii_of_string] in H;
  repeat (let Hc := fresh "Hc" in
          apply Forall_cons in H as [Hc H]; apply is_space_code in Hc).

(** Nothing is removed in front of an ASCII character that is no white
    space. *)
Lemma skipSpace_stop backwards a r :
  Js.is_space a = false → (Js.code a < 128)%N →
  Js.skipSpace backwards (String a r) = String a r.
Proof.
  intros Hs Ha. cbn [Js.skipSpace]. rewrite Hs.
  destruct r as [|b [|c r]], backwards; no_wide_space; reflexivity.
Qed.

Lemma skipSpace_spaces backwards ws : spaces ws → Js.skipSpace backwards ws = "".
Proof.
  induction ws as [|c ws IH]; [reflexivity|].
  unfold spaces, chars in *. cbn [list_ascii_of_string]. intros [Hc Hws]%Forall_cons.
  cbn [Js.skipSpace]. rewrite Hc. now apply IH.
Qed.

Lemma skipSpace_spaces_app backwards ws s :
  spaces ws → Js.skipSpace backwards (ws +:+ s) = Js.skipSpace backwards s.
Proof.
  induction ws as [|c ws IH]; [reflexivity|].
  unfold spaces, chars in *. cbn [list_ascii_of_string]. intros [Hc Hws]%Forall_cons.
  cbn [String.append Js.skipSpace]. rewrite Hc. now apply IH.
Qed.

(** What is left of a string is left of it when white space of the ASCII
    range follows, unless nothing is left. *)
Lemma skipSpace_app_spaces backwards t : spaces t → ∀ k,
  Js.skipSpace backwards (k +:+ t)
  = match Js.skipSpace backwards k with
    | EmptyString => EmptyString
    | String c r => String c r +:+ t
    end.
Proof.
  intros Ht.
  assert (Hall : ∀ n k, String.length k ≤ n →
            Js.skipSpace backwards (k +:+ t)
            = match Js.skipSpace backwards k with
              | EmptyString => EmptyString
              | String c r => String c r +:+ t
              end); [|intros k; now apply (Hall (String.length k))].
  induction n as [|n IH]; intros k Hk.
  { destruct k; [|simpl in Hk; lia]. cbn [String.append Js.skipSpace].
    now apply skipSpace_spaces. }
  destruct k as [|a r1].
  { cbn [String.append Js.skipSpace]. now apply skipSpace_spaces. }
  cbn [String.append Js.skipSpace]. simpl in Hk.
  destruct (Js.is_space a) eqn:Ha; [apply IH; lia|].
  destruct r1 as [|b r2].
  { cbn [String.append].
    destruct t as [|b' [|c' t']], backwards; head_codes Ht;
      no_wide_space; cbn [String.append]; reflexivity. }
  cbn [String.append]. simpl in Hk.
  destruct (if backwards then Js.is_space2 b a else Js.is_space2 a b) eqn:Hab;
    [apply IH; lia|].
  destruct r2 as [|c r3].
  { cbn [String.append].
    destruct t as [|c' t'], backwards; head_codes Ht;
      no_wide_space; cbn [String.append]; reflexivity. }
  cbn [String.append]. simpl in Hk.
  destruct (if backwards then Js.is_space3 c b a else Js.is_space3 a b c) eqn:Habc;
    [apply IH; lia|].
  reflexivity.
Qed.

(** An ASCII character is one code unit. *)
Lemma stringLength_ascii a r :
  (Js.code a < 128)%N → Js.stringLength (String a r) = S (Js.stringLength r).
Proof.
  intros Ha.
  assert (H2 : Js.is_lead 2 a = false)
    by (unfold Js.is_lead; apply andb_false_iff; left; apply N.leb_gt; lia).
  assert (H3 : Js.is_lead 3 a = false)
    by (unfold Js.is_lead; apply andb_false_iff; left; apply N.leb_gt; lia).
  assert (H4 : Js.is_lead 4 a = false)
    by (unfold Js.is_lead; apply andb_false_iff; left; apply N.leb_gt; lia).
  destruct r as [|b [|c [|d r]]]; cbn [Js.stringLength];
    rewrite ?H2, ?H3, ?H4; cbn [andb]; reflexivity.
Qed.

(** On a string of ASCII characters the code units are the bytes. *)
Lemma stringLength_plain s :
  Forall (λ c, (Js.code c < 128)%N) (chars s) → Js.stringLength s = String.length s.
Proof.
  induction s as [|c s IH]; [reflexivity|].
  unfold chars in *. cbn [list_ascii_of_string]. intros [Hc Hs]%Forall_cons.
  rewrite stringLength_ascii by exact Hc. cbn [String.length]. now rewrite IH.
Qed.

(** Only the empty string has no code unit. *)
Lemma stringLength_zero s : Js.stringLength s = 0 → s = "".
Proof.
  destruct s as [|a [|b [|c [|d r]]]]; [reflexivity|..]; cbn [Js.stringLength];
    repeat match goal with
    | |- context [if ?b then _ else _] => destruct b
    end; discriminate.
Qed.

End CodeUnits.

Section HexCodec.

(** A hex digit has a value below 16, which prints as the digit in lower
    case. *)
Lemma hex_value_digit c v :
  hex_value c = Some v → (v < 16)%N ∧ hex_digit v = Js.lower_char c.
Proof.
  destruct c as [[] [] [] [] [] [] [] []]; vm_compute; intros E;
    try discriminate E; injection E as <-; split; reflexivity.
Qed.

Lemma is_hex_value c : is_hex c = true → ∃ v, hex_value c = Some v.
Proof. unfold is_hex. destruct (hex_value c) as [v|]; [eauto | discriminate]. Qed.

Lemma byte_of_nibbles_value hi lo :
  (hi < 16)%N → (lo < 16)%N →
  N_of_ascii (ascii_of_byte (byte_of_nibbles hi lo)) = (16 * hi + lo)%N.
Proof.
  intros Hhi Hlo. unfold byte_of_nibbles.
  rewrite ascii_of_byte_of_ascii. apply N_ascii_embedding. lia.
Qed.

Lemma nibbles_div hi lo : (lo < 16)%N → ((16 * hi + lo) / 16 = hi)%N.
Proof. intros H. symmetry. apply (N.div_unique _ 16 hi lo); [assumption | reflexivity]. Qed.

Lemma nibbles_mod hi lo : (lo < 16)%N → ((16 * hi + lo) mod 16 = lo)%N.
Proof. intros H. symmetry. apply (N.mod_unique _ 16 hi lo); [assumption | reflexivity]. Qed.

(** Decoding a string of [2 * n] hex digits gives [n] bytes, which print
    as the string in lower case. *)
Lemma Buffer_hex_roundtrip : ∀ n s,
  String.length s = 2 * n → Forall (λ c, is_hex c = true) (chars s) →
  length (Buffer_from_hex s) = n
  ∧ Buffer_to_hex (Buffer_from_hex s) = Js.toLowerCase s.
Proof.
  induction n as [|n IH]; intros s Hlen Hhex.
  - destruct s; [split; reflexivity | discriminate Hlen].
  - destruct s as [|a [|b rest]]; simpl in Hlen; try lia.
    assert (Hrest : String.length rest = 2 * n) by lia.
    unfold chars in Hhex. simpl in Hhex.
    apply Forall_cons in Hhex as [Ha Hhex]. apply Forall_cons in Hhex as [Hb Hhex].
    destruct (is_hex_value _ Ha) as [hi Ehi], (is_hex_value _ Hb) as [lo Elo].
    destruct (hex_value_digit _ _ Ehi) as [Lhi Dhi], (hex_value_digit _ _ Elo) as [Llo Dlo].
    destruct (IH rest Hrest Hhex) as [IHlen IHhex].
    cbn [Buffer_from_hex]. rewrite Ehi, Elo. cbn [length Buffer_to_hex Js.toLowerCase].
    rewrite byte_of_nibbles_value, nibbles_div, nibbles_mod by assumption.
    rewrite IHlen, IHhex, Dhi, Dlo. split; reflexivity.
Qed.

(** A string of hex digits does not start with [nsec1]. *)
Lemma hex_not_nsec s :
  Forall (λ c, is_hex c = true) (chars s) → Js.startsWith s "nsec1" = false.
Proof.
  destruct s as [|c s]; [reflexivity|].
  unfold chars. simpl. intros H. apply Forall_cons in H as [Hc _].
  revert Hc. unfold Js.startsWith.
  destruct c as [[] [] [] [] [] [] [] []]; vm_compute; intros Hc;
    first [discriminate Hc | reflexivity].
Qed.

End HexCodec.

(** Hex digits are ASCII characters. *)
Lemma hex_value_code c v : hex_value c = Some v → (Js.code c < 128)%N.
Proof.
  destruct c as [[] [] [] [] [] [] [] []]; vm_compute; intros Hc;
    first [discriminate Hc | reflexivity].
Qed.

Lemma hex_chars_plain s :
  Forall (λ c, is_hex c = true) (chars s) → Forall (λ c, (Js.code c < 128)%N) (chars s).
Proof.
  intros Hs. apply (Forall_impl _ _ _ Hs). intros c Hc.
  destruct (is_hex_value c Hc) as [v Hv]. exact (hex_value_code c v Hv).
Qed.

(** The two paths of parsePrivateKey. *)
Lemma parsePrivateKey_hex_path `{NostrTools} keyStr :
  Js.startsWith (Js.trim keyStr) "nsec1" = false →
  Bot.parsePrivateKey keyStr
  = if negb (Js.stringLength (Js.trim keyStr) =? 64)
    then Throw (ErrorObj "Invalid hex private key length")
    else Return (Buffer_from_hex (Js.trim keyStr)).
Proof. intros Hn. unfold Bot.parsePrivateKey. now rewrite Hn. Qed.

Lemma parsePrivateKey_nsec_path `{NostrTools} keyStr :
  Js.startsWith (Js.trim keyStr) "nsec1" = true →
  Bot.parsePrivateKey keyStr
  = let! decoded := nip19_decode (Js.trim keyStr) in
    if negb (String.eqb (d_type decoded) "nsec")
    then Throw (ErrorObj "Invalid nsec key")
    else Return (d_data decoded).
Proof. intros Hn. unfold Bot.parsePrivateKey. now rewrite Hn. Qed.

(** C6, as the code has it: a key that, trimmed, does not start with nsec1
    is refused when its length (in UTF-16 code units) is not 64, and is
    otherwise handed to the hex decoder without a look at its characters;
    sixty-four hex digits give the thirty-two bytes they spell. A key that
    starts with nsec1 is refused when the decoder throws and when it yields
    a type other than nsec, and gives the decoded bytes otherwise. *)
Theorem parsePrivateKey_cases `{NostrTools} keyStr :
  let k := Js.trim keyStr in
  (Js.startsWith k "nsec1" = false → Js.stringLength k ≠ 64 →
     Bot.parsePrivateKey keyStr = Throw (ErrorObj "Invalid hex private key length"))
  ∧ (Js.startsWith k "nsec1" = false → Js.stringLength k = 64 →
     Bot.parsePrivateKey keyStr = Return (Buffer_from_hex k))
  ∧ (Js.stringLength k = 64 → Forall (λ c, is_hex c = true) (chars k) →
     ∃ bytes, Bot.parsePrivateKey keyStr = Return bytes
              ∧ length bytes = 32 ∧ Buffer_to_hex bytes = Js.toLowerCase k)
  ∧ (Js.startsWith k "nsec1" = true →
     (∀ e, nip19_decode k = Throw e → Bot.parsePrivateKey keyStr = Throw e)
     ∧ (∀ d, nip19_decode k = Return d → d_type d ≠ "nsec" →
          Bot.parsePrivateKey keyStr = Throw (ErrorObj "Invalid nsec key"))
     ∧ (∀ d, nip19_decode k = Return d → d_type d = "nsec" →
          Bot.parsePrivateKey keyStr = Return (d_data d))).
Proof.
  intros k.
  split; [|split; [|split]].
  - intros Hn Hlen. rewrite parsePrivateKey_hex_path by exact Hn. fold k.
    apply Nat.eqb_neq in Hlen. now rewrite Hlen.
  - intros Hn Hlen. rewrite parsePrivateKey_hex_path by exact Hn. fold k.
    now rewrite Hlen.
  - intros Hlen Hhex. exists (Buffer_from_hex k).
    rewrite parsePrivateKey_hex_path by (apply hex_not_nsec, Hhex). fold k.
    rewrite Hlen. rewrite (stringLength_plain k (hex_chars_plain k Hhex)) in Hlen.
    destruct (Buffer_hex_roundtrip 32 k Hlen Hhex) as [L R]. auto.
  - intros Hn. rewrite parsePrivateKey_nsec_path by exact Hn. fold k.
    split; [|split].
    + intros e ->. reflexivity.
    + intros d -> Hty. cbn [bind].
      destruct (String.eqb_spec (d_type d) "nsec"); [contradiction | reflexivity].
    + intros d -> Hty. cbn [bind]. now rewrite Hty.
Qed.

(** Whatever the library does, the key [notHexKey] is not refused: the
    decoder of encoded keys is not consulted for it. *)
Lemma parsePrivateKey_non_hex `{NostrTools} : Bot.parsePrivateKey notHexKey = Return [].
Proof. reflexivity. Qed.

(** C6 fails for a key of sixty-four characters that are not hex digits:
    it is not refused, and the key that comes back has no bytes. *)
Lemma parsePrivateKey_accepts_non_hex :
  Js.stringLength notHexKey = 64
  ∧ Forall (λ c, is_hex c = false) (chars notHexKey)
  ∧ @Bot.parsePrivateKey sampleTools notHexKey = Return [].
Proof.
  split; [reflexivity | split; [|apply parsePrivateKey_non_hex]].
  unfold chars. apply Forall_forall. intros c Hc. vm_compute in Hc.
  repeat (apply elem_of_cons in Hc as [-> | Hc]; [reflexivity|]).
  inversion Hc.
Qed.

Example parsePrivateKey_hex :
  @Bot.parsePrivateKey sampleTools ("  " +:+ sampleHexKey +:+ " ")
  = Return (Buffer_from_hex sampleHexKey)
  ∧ length (Buffer_from_hex sampleHexKey) = 32.
Proof. split; reflexivity. Qed.

(** The length test counts code units, and [trim] removes the white space
    of the whole character set. *)
Example parsePrivateKey_code_units :
  (∃ sk, @Bot.parsePrivateKey sampleTools accentedKey = Return sk ∧ length sk = 31)
  ∧ @Bot.parsePrivateKey sampleTools twiceAccentedKey
    = Throw (ErrorObj "Invalid hex private key length")
  ∧ @Bot.parsePrivateKey sampleTools paddedKey = Return (Buffer_from_hex sampleHexKey).
Proof. split; [eexists; split; reflexivity | split; reflexivity]. Qed.

Example parsePrivateKey_short :
  @Bot.parsePrivateKey sampleTools "5a1c0ffee0"
  = Throw (ErrorObj "Invalid hex private key length").
Proof. reflexivity. Qed.

Example parsePrivateKey_nsec :
  @Bot.parsePrivateKey sampleTools "nsec1sample" = Return (Buffer_from_hex sampleHexKey)
  ∧ @Bot.parsePrivateKey sampleTools "nsec1other" = Throw (ErrorObj "Unknown prefix").
Proof. split; reflexivity. Qed.

(** ** Selection *)

Section SetOrder.

(** The array read back from a [Set]: every value once, in the order of
    the first occurrences. *)
Lemma setInsertAll_app seen xs ys :
  Js.setInsertAll seen (xs ++ ys) = Js.setInsertAll (Js.setInsertAll seen xs) ys.
Proof.
  revert seen. induction xs as [|x xs IH]; intros seen; simpl; [reflexivity|].
  destruct (bool_decide (x ∈ seen)); apply IH.
Qed.

Lemma setInsertAll_elem seen xs x :
  x ∈ Js.setInsertAll seen xs ↔ x ∈ seen ∨ x ∈ xs.
Proof.
  revert seen. induction xs as [|y xs IH]; intros seen; simpl.
  - rewrite elem_of_nil. tauto.
  - rewrite elem_of_cons. case_bool_decide as Hy; rewrite IH.
    + split; [tauto|]. intros [?|[->|?]]; auto.
    + rewrite elem_of_app, list_elem_of_singleton. tauto.
Qed.

Lemma setInsertAll_NoDup seen xs : NoDup seen → NoDup (Js.setInsertAll seen xs).
Proof.
  revert seen. induction xs as [|y xs IH]; intros seen Hnd; simpl; [assumption|].
  case_bool_decide as Hy; apply IH; [assumption|].
  apply NoDup_app. repeat split; [assumption | | apply NoDup_singleton].
  intros x Hx ->%list_elem_of_singleton. contradiction.
Qed.

Lemma uniq_elem xs x : x ∈ Js.uniq xs ↔ x ∈ xs.
Proof. unfold Js.uniq. rewrite setInsertAll_elem, elem_of_nil. tauto. Qed.

Lemma uniq_NoDup xs : NoDup (Js.uniq xs).
Proof. apply setInsertAll_NoDup, NoDup_nil_2. Qed.

(** A value that comes again does not move: it keeps the place of its
    first occurrence. *)
Lemma uniq_snoc xs x :
  Js.uniq (xs ++ [x]) = if bool_decide (x ∈ xs) then Js.uniq xs else Js.uniq xs ++ [x].
Proof.
  unfold Js.uniq. rewrite setInsertAll_app. simpl.
  fold (Js.uniq xs).
  destruct (bool_decide_reflect (x ∈ Js.uniq xs)) as [H|H];
    rewrite uniq_elem in H; [rewrite bool_decide_eq_true_2 | rewrite bool_decide_eq_false_2];
    auto.
Qed.

End SetOrder.

Section RandomIndex.

Local Open Scope Q_scope.

Variable r : Q.
Hypothesis r_nonneg : 0 <= r.

Lemma scaled_nonneg (n : nat) : 0 <= r * inject_Z (Z.of_nat n).
Proof.
  apply Qmult_le_0_compat; [assumption|].
  change 0 with (inject_Z 0). rewrite <- Zle_Qle. lia.
Qed.

Lemma floor_scaled_nonneg (n : nat) : (0 <= Qfloor (r * inject_Z (Z.of_nat n)))%Z.
Proof.
  rewrite <- (Qfloor_Z 0). apply Qfloor_resp_le. apply scaled_nonneg.
Qed.

(** The index is [i] exactly when the scaled sample lies in [[i, i+1)]. *)
Lemma randomIndex_floor (n i : nat) :
  Bot.randomIndex r n = i
  ↔ inject_Z (Z.of_nat i) <= r * inject_Z (Z.of_nat n) < inject_Z (Z.of_nat i + 1).
Proof.
  unfold Bot.randomIndex.
  set (x := r * inject_Z (Z.of_nat n)).
  pose proof (floor_scaled_nonneg n) as H0. fold x in H0.
  pose proof (Qfloor_le x) as Hle. pose proof (Qlt_floor x) as Hlt.
  split.
  - intros <-. rewrite Z2Nat.id by assumption. split; assumption.
  - intros [Hi Hi1].
    assert (Qfloor x = Z.of_nat i) as E; [|rewrite E; apply Nat2Z.id].
    apply Z.le_antisymm.
    + apply Z.lt_succ_r. unfold Z.succ. rewrite Zlt_Qlt.
      eapply Qle_lt_trans; eassumption.
    + rewrite <- (Qfloor_Z (Z.of_nat i)). now apply Qfloor_resp_le.
Qed.

(** In terms of the sample: index [i] of [n] is drawn on the interval
    from [i/n] to [(i+1)/n], of length [1/n] for every [i]. *)
Lemma randomIndex_interval (n i : nat) :
  (0 < n)%nat →
  Bot.randomIndex r n = i
  ↔ inject_Z (Z.of_nat i) / inject_Z (Z.of_nat n) <= r
    ∧ r < inject_Z (Z.of_nat i + 1) / inject_Z (Z.of_nat n).
Proof.
  intros Hn.
  assert (Hpos : 0 < inject_Z (Z.of_nat n)).
  { change 0 with (inject_Z 0). rewrite <- Zlt_Qlt. lia. }
  assert (Hne : ¬ inject_Z (Z.of_nat n) == 0).
  { intros E. rewrite E in Hpos. now apply Qlt_irrefl in Hpos. }
  rewrite randomIndex_floor. split; intros [H1 H2]; split.
  - now apply Qle_shift_div_r.
  - now apply Qlt_shift_div_l.
  - pose proof (proj2 (Qmult_le_r _ _ _ Hpos) H1) as H.
    rewrite (Qmult_comm (_ / _)), Qmult_div_r in H; assumption.
  - pose proof (proj2 (Qmult_lt_r _ _ _ Hpos) H2) as H.
    rewrite (Qmult_comm (_ / _)), Qmult_div_r in H; assumption.
Qed.

Hypothesis r_below_one : r < 1.

Lemma randomIndex_lt (n : nat) : (0 < n)%nat → (Bot.randomIndex r n < n)%nat.
Proof.
  intros Hn. unfold Bot.randomIndex.
  pose proof (floor_scaled_nonneg n) as H0.
  pose proof (Qfloor_le (r * inject_Z (Z.of_nat n))) as Hle.
  assert (Hlt : r * inject_Z (Z.of_nat n) < inject_Z (Z.of_nat n)).
  { rewrite <- (Qmult_1_l (inject_Z (Z.of_nat n))) at 2.
    apply Qmult_lt_compat_r; [|assumption].
    change 0 with (inject_Z 0). rewrite <- Zlt_Qlt. lia. }
  assert ((Qfloor (r * inject_Z (Z.of_nat n)) < Z.of_nat n)%Z).
  { rewrite Zlt_Qlt. eapply Qle_lt_trans; eassumption. }
  lia.
Qed.

End RandomIndex.

Lemma nonempty_length {A} (l : list A) : l ≠ [] → (length l =? 0) = false.
Proof. destruct l; [contradiction | reflexivity]. Qed.

Lemma candidates_eq (window : list string) (quotes : list Quote) :
  filter (λ q, id q ∉ (list_to_set window : gset string)) quotes
  = filter (λ q, id q ∉ window) quotes.
Proof.
  apply list_filter_iff. intros q. now rewrite not_elem_of_list_to_set.
Qed.

Lemma candidates_none (window : list string) (quotes : list Quote) :
  filter (λ q, id q ∉ window) quotes = [] ↔ ∀ q, q ∈ quotes → id q ∈ window.
Proof.
  split.
  - intros E q Hq. destruct (decide (id q ∈ window)) as [|Hout]; [assumption|].
    assert (q ∈ filter (λ q, id q ∉ window) quotes) as Hin
      by (apply list_elem_of_filter; auto).
    rewrite E in Hin. inversion Hin.
  - intros H. apply elem_of_nil_inv. intros q Hq.
    apply list_elem_of_filter in Hq as [Hout Hq]. apply Hout, H, Hq.
Qed.

(** C1: with a sample of Math.random in [0, 1), getRandomQuote returns a
    quote of the dataset whose id is not among the last CAP entries of the
    duplicate-free list of the local ids followed by the ids found on the
    relays, whenever the dataset has such a quote; the quote is the one at
    the drawn index among those quotes. When every quote of the dataset is
    excluded, it returns the quote at the drawn index of the whole dataset.
    The index drawn among [n] entries is [i] exactly for samples from
    [i/n] up to [(i+1)/n]: every entry has an interval of the same length. *)
Theorem getRandomQuote_avoids_recent quotes net now (r : Q) recentIds pubkey relayUrls :
  (0 <= r)%Q → (r < 1)%Q →
  let nostrQuoteIds := Bot.getRecentPostedQuoteIds net now pubkey relayUrls 30 in
  let excluded := Js.sliceLast Bot.CAP (Js.uniq (recentIds ++ nostrQuoteIds)) in
  let candidates := filter (λ q, id q ∉ excluded) quotes in
  let result := Bot.getRandomQuote quotes net now r recentIds pubkey relayUrls in
  (candidates = [] ↔ ∀ q, q ∈ quotes → id q ∈ excluded)
  ∧ (candidates ≠ [] →
     result = candidates !! Bot.randomIndex r (length candidates)
     ∧ ∃ q, result = Some q ∧ q ∈ quotes ∧ id q ∉ excluded)
  ∧ (candidates = [] →
     result = quotes !! Bot.randomIndex r (length quotes)
     ∧ (quotes ≠ [] → ∃ q, result = Some q ∧ q ∈ quotes))
  ∧ (∀ n i, 0 < n →
       Bot.randomIndex r n = i
       ↔ (inject_Z (Z.of_nat i) / inject_Z (Z.of_nat n) <= r
          ∧ r < inject_Z (Z.of_nat i + 1) / inject_Z (Z.of_nat n))%Q).
Proof.
  intros Hr0 Hr1 nostrQuoteIds excluded candidates result.
  assert (Hresult : result
    = if (length candidates =? 0)
      then quotes !! Bot.randomIndex r (length quotes)
      else candidates !! Bot.randomIndex r (length candidates)).
  { unfold result, Bot.getRandomQuote.
    fold nostrQuoteIds. change 100 with Bot.CAP. fold excluded.
    rewrite candidates_eq. reflexivity. }
  assert (Hdrawn : ∀ l : list Quote, l ≠ [] →
    ∃ q, l !! Bot.randomIndex r (length l) = Some q).
  { intros l Hl. apply lookup_lt_is_Some_2, randomIndex_lt; try assumption.
    destruct l; [contradiction | simpl; lia]. }
  split; [apply candidates_none|]. split; [|split].
  - intros Hne. rewrite Hresult, (nonempty_length _ Hne).
    split; [reflexivity|].
    destruct (Hdrawn candidates Hne) as [q Hq].
    exists q. split; [exact Hq|].
    apply list_elem_of_lookup_2 in Hq. unfold candidates in Hq.
    apply list_elem_of_filter in Hq as [Hout Hq]. auto.
  - intros E. rewrite Hresult, E. split; [reflexivity|]. cbn [length Nat.eqb].
    intros Hq. destruct (Hdrawn quotes Hq) as [q Eq].
    exists q. split; [exact Eq | eapply list_elem_of_lookup_2, Eq].
  - intros n i Hn. now apply randomIndex_interval.
Qed.

(** With no local history, the id read from the relays excludes the quote
    that was posted before, and the other quote is selected. *)
Lemma getRandomQuote_avoids_recent_witness :
  (0 <= 1 # 2)%Q ∧ (1 # 2 < 1)%Q
  ∧ Bot.getRecentPostedQuoteIds historyNet 1700000000123 "79be667ef9dcbbac" threeRelays 30
    = ["hughes-1993-001"]
  ∧ ∃ q, Bot.getRandomQuote [untagged; hughes] historyNet 1700000000123 (1 # 2) []
           "79be667ef9dcbbac" threeRelays = Some q
         ∧ q ∈ [untagged; hughes]
         ∧ id q ∉ Js.sliceLast Bot.CAP (Js.uniq ([] ++
             Bot.getRecentPostedQuoteIds historyNet 1700000000123 "79be667ef9dcbbac"
               threeRelays 30)).
Proof.
  assert (H0 : (0 <= 1 # 2)%Q) by (unfold Qle; simpl; lia).
  assert (H1 : (1 # 2 < 1)%Q) by reflexivity.
  split; [exact H0|]. split; [exact H1|]. split; [reflexivity|].
  apply (getRandomQuote_avoids_recent [untagged; hughes] historyNet 1700000000123
           (1 # 2) [] "79be667ef9dcbbac" threeRelays H0 H1).
  vm_compute. discriminate.
Defined.

Example getRandomQuote_exhausted :
  Bot.getRandomQuote [untagged; hughes] historyNet 1700000000123 (1 # 2)
    ["may-1988-001"] "79be667ef9dcbbac" threeRelays = Some hughes.
Proof. vm_compute. reflexivity. Qed.

(** The script's result on an empty dataset is [undefined]. *)
Example getRandomQuote_empty :
  Bot.getRandomQuote [] deadNet 1700000000123 (1 # 2) [] "79be667ef9dcbbac" threeRelays
  = None.
Proof. reflexivity. Qed.

(** ** The run *)

Lemma prepare_selects `{NostrTools} run p :
  Bot.prepare run = Return p →
  Bot.p_state p = Bot.loadState (Bot.stateFile run)
  ∧ ∃ pubkey,
      Bot.getRandomQuote (Bot.quotesData run) (Bot.network run) (Bot.now_query run)
        (Bot.random run) (recentQuoteIds (Bot.loadState (Bot.stateFile run)))
        pubkey (Bot.p_relays p)
      = Some (Bot.p_quote p).
Proof.
  unfold Bot.prepare.
  destruct (Bot.parsePrivateKey _) as [secretKey|e]; [|discriminate]. cbn [bind].
  destruct (getPublicKey secretKey) as [pubkey|e]; [|discriminate]. cbn [bind].
  destruct (Bot.getRandomQuote _ _ _ _ _ _ _) as [quote|] eqn:Q; [|discriminate].
  destruct (finalizeEvent _ _) as [event|e]; [|discriminate]. cbn [bind].
  intros [= <-]. cbn. split; [reflexivity|]. exists pubkey. exact Q.
Qed.

(** C3: an error of publishToRelays reaches the caller of main and the
    state file is left as it was; when publishToRelays returns, the file is
    replaced by the loaded state with the id of the selected quote appended,
    the list cut to its last 100 entries, the timestamp set to the current
    time and the counter raised by one. An error before the publication
    leaves the file as it was, too. *)
Theorem main_updates_history_on_success `{NostrTools} run :
  (∀ e, Bot.prepare run = Throw e →
        Bot.main run = {| Bot.outcome := Throw e; Bot.fileAfter := Bot.stateFile run |})
  ∧ (∀ p, Bot.prepare run = Return p →
       let state := Bot.loadState (Bot.stateFile run) in
       (∃ pubkey,
          Bot.getRandomQuote (Bot.quotesData run) (Bot.network run) (Bot.now_query run)
            (Bot.random run) (recentQuoteIds state) pubkey (Bot.p_relays p)
          = Some (Bot.p_quote p))
       ∧ (∀ e, Bot.publishToRelays (Bot.network run) (Bot.p_event p) (Bot.p_relays p)
               = Throw e →
               Bot.main run
               = {| Bot.outcome := Throw e; Bot.fileAfter := Bot.stateFile run |})
       ∧ (Bot.publishToRelays (Bot.network run) (Bot.p_event p) (Bot.p_relays p)
          = Return tt →
          Bot.main run
          = {| Bot.outcome := Return tt;
               Bot.fileAfter := Bot.Stored
                 {| recentQuoteIds :=
                      Js.sliceLast Bot.CAP (recentQuoteIds state ++ [id (Bot.p_quote p)]);
                    lastPostTimestamp := Bot.now_saved run;
                    totalPostsCount := (totalPostsCount state + 1)%Z |} |})).
Proof.
  split.
  - intros e E. unfold Bot.main. now rewrite E.
  - intros p E state. destruct (prepare_selects run p E) as [Hstate Hquote].
    split; [exact Hquote|]. unfold Bot.main. rewrite E. split.
    + intros e ->. reflexivity.
    + intros ->. unfold Bot.saveState, state, Bot.CAP.
      rewrite <- Hstate, <- (recordPost_ids (Bot.now_saved run)). reflexivity.
Qed.

Example main_partial_success :
  @Bot.main sampleTools (sampleRun partialNet)
  = {| Bot.outcome := Return tt;
       Bot.fileAfter := Bot.Stored
         {| recentQuoteIds := ["may-1988-001"; "hughes-1993-001"];
            lastPostTimestamp := 1700000009789;
            totalPostsCount := 2 |} |}.
Proof. vm_compute. reflexivity. Qed.

Example main_total_failure :
  @Bot.main sampleTools (sampleRun deadNet)
  = {| Bot.outcome := Throw (ErrorObj "Failed to publish to any relay");
       Bot.fileAfter := Bot.Stored sampleState |}.
Proof. vm_compute. reflexivity. Qed.

(** ** The history read from the relays *)

Lemma find_app_skip {A} (P : A → bool) (l1 l2 : list A) :
  Forall (λ x, P x = false) l1 → List.find P (l1 ++ l2) = List.find P l2.
Proof.
  induction 1 as [|x l1 Hx _ IH]; simpl; [reflexivity|]. now rewrite Hx.
Qed.

(** X1: the id the history query reads from an event that carries the
    tags of generateTags is the id of the quote (no id is read when the
    quote's id is the empty string). *)
Theorem quote_id_read_back quote event :
  e_tags event = Bot.generateTags quote →
  Bot.quoteIdOf event = if String.eqb (id quote) "" then None else Some (id quote).
Proof.
  intros Htags. unfold Bot.quoteIdOf, Bot.quoteIdTag. rewrite Htags.
  unfold Bot.generateTags. rewrite find_app_skip.
  - reflexivity.
  - apply Forall_forall. intros tag (t & -> & _)%list_elem_of_fmap. reflexivity.
Qed.

Lemma quote_id_read_back_witness : Bot.quoteIdOf sampleEvent = Some "hughes-1993-001".
Proof. exact (quote_id_read_back hughes sampleEvent eq_refl). Defined.

Lemma queryRelays_all_failed net filter : ∀ relayUrls i quoteIds,
  (∀ j url, ∃ e, Bot.subscribe net j url filter = Bot.QueryFailed e) →
  Bot.queryRelays net filter i relayUrls quoteIds = quoteIds.
Proof.
  induction relayUrls as [|url rest IH]; intros i quoteIds Hfail; simpl; [reflexivity|].
  destruct (Hfail i url) as [e ->]. now apply IH.
Qed.

(** X2: when no relay can be queried, no id comes from the network, and
    the selection excludes the last 100 entries of the local list without
    its repeats. *)
Theorem query_failures_leave_local_history net now pubkey relayUrls :
  (∀ i url filter, ∃ e, Bot.subscribe net i url filter = Bot.QueryFailed e) →
  Bot.getRecentPostedQuoteIds net now pubkey relayUrls 30 = []
  ∧ ∀ quotes r recentIds,
      let candidates :=
        filter (λ q, id q ∉ Js.sliceLast Bot.CAP (Js.uniq recentIds)) quotes in
      Bot.getRandomQuote quotes net now r recentIds pubkey relayUrls
      = if (length candidates =? 0)
        then quotes !! Bot.randomIndex r (length quotes)
        else candidates !! Bot.randomIndex r (length candidates).
Proof.
  intros Hfail.
  assert (E : Bot.getRecentPostedQuoteIds net now pubkey relayUrls 30 = []).
  { unfold Bot.getRecentPostedQuoteIds. rewrite queryRelays_all_failed; [reflexivity|].
    intros j url. apply Hfail. }
  split; [exact E|]. intros quotes r recentIds candidates.
  unfold Bot.getRandomQuote. rewrite E, app_nil_r, candidates_eq. reflexivity.
Qed.

Lemma query_failures_leave_local_history_witness :
  Bot.getRecentPostedQuoteIds deadNet 1700000000123 "79be667ef9dcbbac" threeRelays 30 = []
  ∧ ∀ quotes r recentIds,
      let candidates :=
        filter (λ q, id q ∉ Js.sliceLast Bot.CAP (Js.uniq recentIds)) quotes in
      Bot.getRandomQuote quotes deadNet 1700000000123 r recentIds "79be667ef9dcbbac"
        threeRelays
      = if (length candidates =? 0)
        then quotes !! Bot.randomIndex r (length quotes)
        else candidates !! Bot.randomIndex r (length candidates).
Proof.
  apply (query_failures_leave_local_history deadNet 1700000000123 "79be667ef9dcbbac"
           threeRelays).
  intros i url filter. eexists. reflexivity.
Defined.

(** X4: the list read back from a Set built from a list holds every value
    of the list once; a value that occurs again keeps the place of its
    first occurrence, so appending a value already present changes
    nothing. *)
Theorem set_keeps_first_occurrences xs x :
  NoDup (Js.uniq xs)
  ∧ (∀ y, y ∈ Js.uniq xs ↔ y ∈ xs)
  ∧ Js.uniq (xs ++ [x]) = if bool_decide (x ∈ xs) then Js.uniq xs else Js.uniq xs ++ [x].
Proof.
  split; [apply uniq_NoDup|]. split; [intros y; apply uniq_elem | apply uniq_snoc].
Qed.

(** ** The generated key *)

Section GeneratedKey.

Lemma byte_hex_digits (b : Byte.byte) :
  let n := N_of_ascii (ascii_of_byte b) in
  hex_value (hex_digit (n / 16)) = Some (n / 16)%N
  ∧ hex_value (hex_digit (n mod 16)) = Some (n mod 16)%N
  ∧ byte_of_nibbles (n / 16) (n mod 16) = b.
Proof. destruct b; vm_compute; repeat split; reflexivity. Qed.

Lemma Buffer_from_to_hex bs : Buffer_from_hex (Buffer_to_hex bs) = bs.
Proof.
  induction bs as [|b bs IH]; [reflexivity|].
  destruct (byte_hex_digits b) as (Hhi & Hlo & Hb).
  cbn [Buffer_to_hex Buffer_from_hex]. cbv zeta in Hhi, Hlo, Hb.
  rewrite Hhi, Hlo, Hb, IH. reflexivity.
Qed.

Lemma Buffer_to_hex_length bs : String.length (Buffer_to_hex bs) = 2 * length bs.
Proof. induction bs as [|b bs IH]; simpl; [reflexivity | rewrite IH; lia]. Qed.

(** The hex form of a buffer holds ASCII characters that are no white
    space. *)
Lemma Buffer_to_hex_no_space bs :
  Forall (λ c, Js.is_space c = false ∧ (Js.code c < 128)%N) (chars (Buffer_to_hex bs)).
Proof.
  induction bs as [|b bs IH]; [constructor|].
  cbn [Buffer_to_hex]. unfold chars. cbn [list_ascii_of_string].
  constructor; [destruct b; split; reflexivity|].
  constructor; [destruct b; split; reflexivity | exact IH].
Qed.

Lemma rev_app_twice s : ∀ a b,
  String.rev_app (String.rev_app s a) b = String.rev_app a (s +:+ b).
Proof.
  induction s as [|c s IH]; intros a b; simpl; [reflexivity|]. now rewrite IH.
Qed.

Lemma rev_rev s : String.rev (String.rev s) = s.
Proof. unfold String.rev. rewrite rev_app_twice. simpl. apply append_empty_r. Qed.

Lemma rev_app_chars (P : ascii → Prop) s : ∀ a,
  Forall P (chars s) → Forall P (chars a) → Forall P (chars (String.rev_app s a)).
Proof.
  induction s as [|c s IH]; intros a Hs Ha; simpl; [assumption|].
  unfold chars in Hs. cbn [list_ascii_of_string] in Hs.
  apply Forall_cons in Hs as [Hc Hs]. apply IH; [assumption|].
  unfold chars. cbn [list_ascii_of_string]. now constructor.
Qed.

Lemma skipSpace_no_space backwards s :
  Forall (λ c, Js.is_space c = false ∧ (Js.code c < 128)%N) (chars s) →
  Js.skipSpace backwards s = s.
Proof.
  destruct s as [|c s]; [reflexivity|]. unfold chars. cbn [list_ascii_of_string].
  intros [[Hc Hcode] _]%Forall_cons. now apply skipSpace_stop.
Qed.

(** [trim] leaves a string of ASCII characters without white space as it
    is. *)
Lemma trim_no_space s :
  Forall (λ c, Js.is_space c = false ∧ (Js.code c < 128)%N) (chars s) → Js.trim s = s.
Proof.
  intros Hs. unfold Js.trim, Js.trimEnd, Js.trimStart.
  rewrite (skipSpace_no_space false s Hs), skipSpace_no_space.
  - apply rev_rev.
  - apply rev_app_chars; [assumption | constructor].
Qed.

Lemma Buffer_to_hex_units bs : Js.stringLength (Buffer_to_hex bs) = 2 * length bs.
Proof.
  rewrite stringLength_plain; [apply Buffer_to_hex_length|].
  apply (Forall_impl _ _ _ (Buffer_to_hex_no_space bs)). now intros c [_ Hc].
Qed.

End GeneratedKey.

(** X3: the hex string main stores for a generated key of 32 bytes is
    parsed back to these bytes. *)
Theorem generated_key_is_parsed `{NostrTools} (sk : list Byte.byte) :
  length sk = 32 → Bot.parsePrivateKey (Buffer_to_hex sk) = Return sk.
Proof.
  intros Hlen.
  pose proof (trim_no_space _ (Buffer_to_hex_no_space sk)) as Htrim.
  rewrite parsePrivateKey_hex_path; rewrite Htrim.
  - rewrite Buffer_to_hex_units, Hlen. cbn [Nat.mul Nat.add Nat.eqb negb].
    now rewrite Buffer_from_to_hex.
  - destruct sk as [|b sk]; [discriminate Hlen|].
    cbn [Buffer_to_hex]. unfold Js.startsWith. destruct b; reflexivity.
Qed.

Lemma generated_key_is_parsed_witness :
  @Bot.parsePrivateKey sampleTools (Buffer_to_hex (Buffer_from_hex sampleHexKey))
  = Return (Buffer_from_hex sampleHexKey).
Proof. exact (@generated_key_is_parsed sampleTools (Buffer_from_hex sampleHexKey) eq_refl). Defined.

(** ** The publish loop, relay by relay *)

Lemma relayOutcome_relay url a : Bot.relay (Bot.relayOutcome url a) = url.
Proof.
  destruct a as [e | e | |]; simpl; try reflexivity;
    unfold Bot.caught; destruct (Js.includes _ _); reflexivity.
Qed.

Lemma imap_relayOutcome_relay (f : nat → string → Bot.PublishAttempt) : ∀ urls,
  map Bot.relay (imap (λ j url, Bot.relayOutcome url (f j url)) urls) = urls.
Proof.
  intros urls. revert f.
  induction urls as [|url rest IH]; intros f; simpl; [reflexivity|].
  rewrite relayOutcome_relay. f_equal. apply (IH (f ∘ S)).
Qed.

(** X5: publishToRelays records one outcome per relay of the list, in the
    order of the list and under the relay's URL. A confirmed submission is
    a success; a submission that loses the race against the timer and an
    attempt that throws a value that is no Error are failures, with the
    messages "Timeout waiting for relay confirmation" and "Unknown error".
    The only error publishToRelays itself throws is "Failed to publish to
    any relay". *)
Theorem publish_outcomes_follow_relays net event relayUrls :
  let results := Bot.relayResults net event relayUrls in
  map Bot.relay results = relayUrls
  ∧ (∀ i url, relayUrls !! i = Some url →
       (Bot.publish net i url event = Bot.PublishConfirmed →
          results !! i
          = Some {| Bot.relay := url; Bot.success := true; Bot.error := None |})
       ∧ (Bot.publish net i url event = Bot.PublishTimedOut →
          results !! i
          = Some {| Bot.relay := url; Bot.success := false;
                    Bot.error := Some "Timeout waiting for relay confirmation" |})
       ∧ (Bot.publish net i url event = Bot.ConnectFailed OtherValue
          ∨ Bot.publish net i url event = Bot.PublishRejected OtherValue →
          results !! i
          = Some {| Bot.relay := url; Bot.success := false;
                    Bot.error := Some "Unknown error" |}))
  ∧ (∀ e, Bot.publishToRelays net event relayUrls = Throw e →
          e = ErrorObj "Failed to publish to any relay").
Proof.
  intros results. split; [|split].
  - unfold results, Bot.relayResults. rewrite publishLoop_spec. simpl.
    apply (imap_relayOutcome_relay (λ j url, Bot.publish net j url event)).
  - intros i url Hurl. unfold results.
    rewrite (relayResults_lookup _ _ _ _ _ Hurl).
    repeat split.
    + intros ->. reflexivity.
    + intros ->. reflexivity.
    + intros [-> | ->]; reflexivity.
  - intros e. unfold Bot.publishToRelays.
    destruct (_ =? 0); [|discriminate]. now intros [= <-].
Qed.

(** ** The history query, relay by relay *)

Lemma queryRelays_first net filter : ∀ relayUrls k i url events,
  relayUrls !! i = Some url →
  Bot.subscribe net (k + i) url filter = Bot.QueryCollected events →
  omap Bot.quoteIdOf events ≠ [] →
  (∀ j u, j < i → relayUrls !! j = Some u →
     (∃ e, Bot.subscribe net (k + j) u filter = Bot.QueryFailed e)
     ∨ ∃ evs, Bot.subscribe net (k + j) u filter = Bot.QueryCollected evs
              ∧ omap Bot.quoteIdOf evs = []) →
  Bot.queryRelays net filter k relayUrls [] = omap Bot.quoteIdOf events.
Proof.
  induction relayUrls as [|u rest IH]; intros k i url events Hurl Hsub Hids Hbefore.
  - discriminate Hurl.
  - destruct i as [|i]; simpl in Hurl.
    + injection Hurl as ->. simpl. rewrite Nat.add_0_r in Hsub. rewrite Hsub. simpl.
      destruct (omap Bot.quoteIdOf events) as [|x xs]; [contradiction | reflexivity].
    + simpl.
      assert (Hrest : Bot.queryRelays net filter (S k) rest [] = omap Bot.quoteIdOf events).
      { apply (IH (S k) i url events Hurl).
        - now rewrite Nat.add_succ_comm.
        - exact Hids.
        - intros j u' Hj Hu'. rewrite Nat.add_succ_comm.
          apply (Hbefore (S j) u'); [lia | exact Hu']. }
      destruct (Hbefore 0 u) as [[e He] | (evs & He & Hnone)]; [lia | reflexivity | |];
        rewrite Nat.add_0_r in He; rewrite He; [exact Hrest|].
      simpl. rewrite Hnone. simpl. exact Hrest.
Qed.

(** X6: the history query takes its ids from the first relay of the list
    whose events carry a quote id: when the relays before it fail or
    deliver no id, the result is the list of that relay's ids without
    repeats, whatever the relays after it hold. *)
Theorem first_answering_relay_decides net now pubkey relayUrls i url events :
  let filter := {| Bot.kinds := [1%Z]; Bot.authors := [pubkey];
                   Bot.since := ((now - 30 * 24 * 60 * 60 * 1000) / 1000)%Z;
                   Bot.limit := 100 |} in
  relayUrls !! i = Some url →
  Bot.subscribe net i url filter = Bot.QueryCollected events →
  omap Bot.quoteIdOf events ≠ [] →
  (∀ j u, j < i → relayUrls !! j = Some u →
     (∃ e, Bot.subscribe net j u filter = Bot.QueryFailed e)
     ∨ ∃ evs, Bot.subscribe net j u filter = Bot.QueryCollected evs
              ∧ omap Bot.quoteIdOf evs = []) →
  Bot.getRecentPostedQuoteIds net now pubkey relayUrls 30
  = Js.uniq (omap Bot.quoteIdOf events).
Proof.
  intros filter Hurl Hsub Hids Hbefore. unfold Bot.getRecentPostedQuoteIds.
  fold filter. f_equal.
  apply (queryRelays_first net filter relayUrls 0 i url events); assumption.
Qed.

Lemma first_answering_relay_decides_witness :
  Bot.getRecentPostedQuoteIds historyNet 1700000000123 "79be667ef9dcbbac" threeRelays 30
  = Js.uniq (omap Bot.quoteIdOf [sampleEvent]).
Proof.
  apply (first_answering_relay_decides historyNet 1700000000123 "79be667ef9dcbbac"
           threeRelays 1 "wss://b.example" [sampleEvent]).
  - reflexivity.
  - reflexivity.
  - discriminate.
  - intros j u Hj Hu. left. destruct j as [|j]; [|lia].
    eexists. reflexivity.
Defined.

(** ** Selection, continued *)

Lemma getRandomQuote_unfold quotes net now r recentIds pubkey relayUrls :
  Bot.getRandomQuote quotes net now r recentIds pubkey relayUrls
  = let excluded :=
      Js.sliceLast 100
        (Js.uniq (recentIds ++ Bot.getRecentPostedQuoteIds net now pubkey relayUrls 30)) in
    let candidates := filter (λ q, id q ∉ excluded) quotes in
    if (length candidates =? 0)
    then quotes !! Bot.randomIndex r (length quotes)
    else candidates !! Bot.randomIndex r (length candidates).
Proof. unfold Bot.getRandomQuote. rewrite candidates_eq. reflexivity. Qed.

Lemma drawn_some {A} (r : Q) (l : list A) :
  (0 <= r)%Q → (r < 1)%Q → l ≠ [] → ∃ x, l !! Bot.randomIndex r (length l) = Some x.
Proof.
  intros H0 H1 Hl. apply lookup_lt_is_Some_2, randomIndex_lt; try assumption.
  destruct l; [contradiction | simpl; lia].
Qed.

(** Every index below [n] is drawn by some sample. *)
Lemma randomIndex_hits (n i : nat) :
  i < n → ∃ r : Q, (0 <= r)%Q ∧ (r < 1)%Q ∧ Bot.randomIndex r n = i.
Proof.
  intros Hi.
  assert (Hn : (0 < inject_Z (Z.of_nat n))%Q).
  { change 0%Q with (inject_Z 0). rewrite <- Zlt_Qlt. lia. }
  set (r := (inject_Z (Z.of_nat i) / inject_Z (Z.of_nat n))%Q).
  assert (H0 : (0 <= r)%Q).
  { apply Qle_shift_div_l; [exact Hn|]. rewrite Qmult_0_l.
    change 0%Q with (inject_Z 0). rewrite <- Zle_Qle. lia. }
  exists r. split; [exact H0|]. split.
  - apply Qlt_shift_div_r; [exact Hn|]. rewrite Qmult_1_l, <- Zlt_Qlt. lia.
  - apply (randomIndex_interval r H0 n i); [lia|]. split; [apply Qle_refl|].
    unfold r. apply Qlt_shift_div_l; [exact Hn|].
    rewrite (Qmult_comm (_ / _)), Qmult_div_r.
    + rewrite <- Zlt_Qlt. lia.
    + intros E. rewrite E in Hn. now apply Qlt_irrefl in Hn.
Qed.

(** X7: every quote of the dataset whose id is not excluded can be
    selected: some sample of Math.random in [0, 1) makes getRandomQuote
    return it. *)
Theorem every_candidate_can_be_selected quotes net now recentIds pubkey relayUrls q :
  let excluded :=
    Js.sliceLast Bot.CAP
      (Js.uniq (recentIds ++ Bot.getRecentPostedQuoteIds net now pubkey relayUrls 30)) in
  q ∈ quotes → id q ∉ excluded →
  ∃ r : Q, (0 <= r)%Q ∧ (r < 1)%Q
           ∧ Bot.getRandomQuote quotes net now r recentIds pubkey relayUrls = Some q.
Proof.
  intros excluded Hq Hout.
  assert (Hc : q ∈ filter (λ q, id q ∉ excluded) quotes)
    by (apply list_elem_of_filter; auto).
  apply list_elem_of_lookup_1 in Hc as [i Hi].
  pose proof (lookup_lt_Some _ _ _ Hi) as Hlt.
  destruct (randomIndex_hits _ _ Hlt) as (r & H0 & H1 & Hr).
  exists r. split; [exact H0|]. split; [exact H1|].
  rewrite getRandomQuote_unfold. cbv zeta. fold Bot.CAP. fold excluded.
  rewrite nonempty_length; [now rewrite Hr|].
  intros E. rewrite E in Hi. discriminate Hi.
Qed.

Lemma every_candidate_can_be_selected_witness :
  ∃ r : Q, (0 <= r)%Q ∧ (r < 1)%Q
    ∧ Bot.getRandomQuote [untagged; hughes; barlow] deadNet 1700000000123 r
        ["hughes-1993-001"] "79be667ef9dcbbac" threeRelays = Some barlow.
Proof.
  apply (every_candidate_can_be_selected [untagged; hughes; barlow] deadNet 1700000000123
           ["hughes-1993-001"] "79be667ef9dcbbac" threeRelays barlow).
  - set_solver.
  - intros H. apply list_elem_of_In in H. vm_compute in H.
    destruct H as [H | []]. discriminate H.
Defined.

Lemma last_in_sliceLast {A} (n : nat) (xs : list A) (x : A) :
  x ∈ Js.sliceLast (S n) (xs ++ [x]).
Proof.
  unfold Js.sliceLast. rewrite length_app. simpl.
  rewrite drop_app_le by lia. apply elem_of_app. right. left.
Qed.

(** X8: after a post, the next selection does not return the posted quote
    again, nor any quote whose id is on record locally or on the relays, as
    long as the ids on record, without repeats, are at most 100 and the
    dataset has a quote that is not on record. *)
Theorem posted_quote_not_repeated quotes net now (r : Q) state quote saved pubkey relayUrls :
  let recentIds := recentQuoteIds (Bot.recordPost saved state quote) in
  let nostrQuoteIds := Bot.getRecentPostedQuoteIds net now pubkey relayUrls 30 in
  (0 <= r)%Q → (r < 1)%Q →
  length (Js.uniq (recentIds ++ nostrQuoteIds)) ≤ 100 →
  (∃ q, q ∈ quotes ∧ (id q ∉ recentIds) ∧ (id q ∉ nostrQuoteIds)) →
  ∃ q, Bot.getRandomQuote quotes net now r recentIds pubkey relayUrls = Some q
       ∧ q ∈ quotes ∧ id q ≠ id quote
       ∧ (id q ∉ recentIds) ∧ (id q ∉ nostrQuoteIds).
Proof.
  intros recentIds nostrQuoteIds H0 H1 Hfits (q0 & Hq0 & Hloc & Hnet).
  rewrite getRandomQuote_unfold. cbv zeta. fold nostrQuoteIds.
  rewrite (sliceLast_all _ _ Hfits).
  set (candidates := filter (λ q, id q ∉ Js.uniq (recentIds ++ nostrQuoteIds)) quotes).
  assert (Hin : ∀ q, q ∈ candidates ↔
                     q ∈ quotes ∧ (id q ∉ recentIds) ∧ (id q ∉ nostrQuoteIds)).
  { intros q. unfold candidates.
    rewrite list_elem_of_filter, uniq_elem, elem_of_app. tauto. }
  assert (Hne : candidates ≠ []).
  { intros E. assert (q0 ∈ candidates) as Hc by (apply Hin; auto).
    rewrite E in Hc. inversion Hc. }
  rewrite (nonempty_length _ Hne).
  destruct (drawn_some r candidates H0 H1 Hne) as [q Hq].
  exists q. split; [exact Hq|].
  apply list_elem_of_lookup_2, Hin in Hq as (Hq & Hl & Hn).
  repeat split; try assumption.
  intros E. apply Hl. rewrite E. unfold recentIds.
  rewrite recordPost_ids. apply last_in_sliceLast.
Qed.

Lemma posted_quote_not_repeated_witness :
  ∃ q, Bot.getRandomQuote [untagged; hughes; barlow] deadNet 1700000000123 (1 # 2)
         (recentQuoteIds (Bot.recordPost 1700000009789 sampleState hughes))
         "79be667ef9dcbbac" threeRelays = Some q
       ∧ q ∈ [untagged; hughes; barlow] ∧ id q ≠ id hughes
       ∧ (id q ∉ recentQuoteIds (Bot.recordPost 1700000009789 sampleState hughes))
       ∧ (id q ∉ Bot.getRecentPostedQuoteIds deadNet 1700000000123 "79be667ef9dcbbac"
                   threeRelays 30).
Proof.
  apply (posted_quote_not_repeated [untagged; hughes; barlow] deadNet 1700000000123
           (1 # 2) sampleState hughes 1700000009789 "79be667ef9dcbbac" threeRelays).
  - unfold Qle; simpl; lia.
  - reflexivity.
  - vm_compute. lia.
  - exists barlow. split; [set_solver|].
    split; intros H; apply list_elem_of_In in H; vm_compute in H;
      repeat (destruct H as [H | H]; [discriminate H|]); exact H.
Defined.

Lemma filter_all {A} (P : A → Prop) `{∀ x, Decision (P x)} (l : list A) :
  (∀ x, P x) → filter P l = l.
Proof.
  intros HP. induction l as [|x l IH]; [reflexivity|].
  rewrite filter_cons, decide_True by apply HP. now rewrite IH.
Qed.

Lemma setInsertAll_filtered ys : ∀ seen skipped,
  Js.setInsertAll seen (filter (λ y, y ∉ skipped) ys)
  = seen ++ Js.uniq (filter (λ y, y ∉ seen ++ skipped) ys).
Proof.
  induction ys as [|y ys IH]; intros seen skipped.
  - simpl. now rewrite app_nil_r.
  - rewrite !filter_cons.
    destruct (decide (y ∉ skipped)) as [Hs | Hs].
    + cbn [Js.setInsertAll]. case_bool_decide as Hy.
      * rewrite decide_False by (rewrite not_elem_of_app; tauto). apply IH.
      * rewrite decide_True by (rewrite not_elem_of_app; tauto).
        rewrite IH. unfold Js.uniq. cbn [Js.setInsertAll].
        rewrite bool_decide_eq_false_2 by apply not_elem_of_nil.
        change ([] ++ [y]) with [y].
        rewrite (IH [y] (seen ++ skipped)). unfold Js.uniq.
        rewrite <- app_assoc. do 3 f_equal. apply list_filter_iff.
        intros x. rewrite !not_elem_of_app. tauto.
    + rewrite decide_False by (rewrite not_elem_of_app; tauto). apply IH.
Qed.

Lemma setInsertAll_fresh ys seen :
  Js.setInsertAll seen ys = seen ++ Js.uniq (filter (λ y, y ∉ seen) ys).
Proof.
  rewrite <- (filter_all (λ y, y ∉ []) ys) at 1 by (intros x; apply not_elem_of_nil).
  rewrite setInsertAll_filtered. do 2 f_equal. now rewrite app_nil_r.
Qed.

(** X9: in the list of which the last 100 entries are excluded, the local
    ids come first and the ids read from the relays that are not local ids
    come after them. So when the relays deliver 100 or more ids that are
    not on record locally, no excluded id is a local one: the local
    history has no part in the selection. *)
Theorem unknown_network_ids_displace_local recentIds nostrQuoteIds :
  let fresh := Js.uniq (filter (λ y, y ∉ recentIds) nostrQuoteIds) in
  let excluded := Js.sliceLast Bot.CAP (Js.uniq (recentIds ++ nostrQuoteIds)) in
  Js.uniq (recentIds ++ nostrQuoteIds) = Js.uniq recentIds ++ fresh
  ∧ (Bot.CAP ≤ length fresh →
     excluded = Js.sliceLast Bot.CAP fresh
     ∧ ∀ x, x ∈ excluded → (x ∉ recentIds) ∧ x ∈ nostrQuoteIds).
Proof.
  intros fresh excluded.
  assert (E : Js.uniq (recentIds ++ nostrQuoteIds) = Js.uniq recentIds ++ fresh).
  { unfold Js.uniq at 1. rewrite setInsertAll_app. fold (Js.uniq recentIds).
    rewrite setInsertAll_fresh. f_equal. unfold fresh. f_equal.
    apply list_filter_iff. intros x. now rewrite uniq_elem. }
  split; [exact E|]. intros Hlen.
  assert (Ex : excluded = Js.sliceLast Bot.CAP fresh).
  { unfold excluded, Js.sliceLast. rewrite E, length_app.
    rewrite drop_app_ge by lia. f_equal. lia. }
  split; [exact Ex|]. intros x Hx. rewrite Ex in Hx.
  destruct (sliceLast_suffix Bot.CAP fresh) as (dropped & Hd & _).
  assert (x ∈ fresh) as Hf by (rewrite Hd; apply elem_of_app; auto).
  unfold fresh in Hf. apply uniq_elem, list_elem_of_filter in Hf. exact Hf.
Qed.

Example local_id_selected_again :
  Bot.CAP ≤ length (Js.uniq (filter (λ y, y ∉ ["hughes-1993-001"]) hundredIds))
  ∧ Js.sliceLast Bot.CAP (Js.uniq (["hughes-1993-001"] ++ hundredIds)) = hundredIds.
Proof. split; vm_compute; [lia | reflexivity]. Qed.

(** ** The quote library of the dashboard *)

(** X10: with a sample of Math.random in [0, 1), getRandomQuoteExcluding
    returns a quote of the dataset whose id is not among the last maxRecent
    entries of recentIds whenever the dataset has such a quote, and the
    quote at the drawn index of the whole dataset otherwise. For
    maxRecent = 0 the excluded ids are all of recentIds, not none. *)
Theorem getRandomQuoteExcluding_avoids_recent quotes (r : Q) recentIds maxRecent :
  (0 <= r)%Q → (r < 1)%Q →
  let window := Quotes.sliceFromEnd maxRecent recentIds in
  let candidates := filter (λ q, id q ∉ window) quotes in
  let result := Quotes.getRandomQuoteExcluding quotes r recentIds maxRecent in
  (maxRecent = 0 → window = recentIds)
  ∧ (0 < maxRecent →
     length window = Nat.min maxRecent (length recentIds)
     ∧ ∃ older, recentIds = older ++ window)
  ∧ (candidates ≠ [] → ∃ q, result = Some q ∧ q ∈ quotes ∧ id q ∉ window)
  ∧ (candidates = [] →
     result = quotes !! Bot.randomIndex r (length quotes)
     ∧ (quotes ≠ [] → ∃ q, result = Some q ∧ q ∈ quotes)).
Proof.
  intros H0 H1 window candidates result.
  assert (Hresult : result
    = if (length candidates =? 0)
      then quotes !! Bot.randomIndex r (length quotes)
      else candidates !! Bot.randomIndex r (length candidates)).
  { unfold result, Quotes.getRandomQuoteExcluding, Quotes.getRandomQuote.
    fold window. rewrite candidates_eq. reflexivity. }
  split; [intros ->; reflexivity|]. split; [|split].
  - intros Hpos. unfold window. destruct maxRecent as [|n]; [lia|].
    cbn [Quotes.sliceFromEnd]. split; [apply sliceLast_length|].
    destruct (sliceLast_suffix (S n) recentIds) as (older & E & _). eauto.
  - intros Hne. rewrite Hresult, (nonempty_length _ Hne).
    destruct (drawn_some r candidates H0 H1 Hne) as [q Hq].
    exists q. split; [exact Hq|].
    apply list_elem_of_lookup_2 in Hq. unfold candidates in Hq.
    apply list_elem_of_filter in Hq as [Hout Hq]. auto.
  - intros E. rewrite Hresult, E. split; [reflexivity|]. cbn [length Nat.eqb].
    intros Hq. destruct (drawn_some r quotes H0 H1 Hq) as [q Eq].
    exists q. split; [exact Eq | eapply list_elem_of_lookup_2, Eq].
Qed.

Lemma getRandomQuoteExcluding_avoids_recent_witness :
  ∃ q, Quotes.getRandomQuoteExcluding [untagged; hughes; barlow] (1 # 2)
         ["may-1988-001"; "hughes-1993-001"] Quotes.defaultMaxRecent = Some q
       ∧ q ∈ [untagged; hughes; barlow]
       ∧ id q ∉ Quotes.sliceFromEnd Quotes.defaultMaxRecent
                  ["may-1988-001"; "hughes-1993-001"].
Proof.
  assert (H0 : (0 <= 1 # 2)%Q) by (unfold Qle; simpl; lia).
  assert (H1 : (1 # 2 < 1)%Q) by reflexivity.
  apply (getRandomQuoteExcluding_avoids_recent [untagged; hughes; barlow] (1 # 2)
           ["may-1988-001"; "hughes-1993-001"] Quotes.defaultMaxRecent H0 H1).
  vm_compute. discriminate.
Defined.

Example getRandomQuoteExcluding_zero :
  Quotes.getRandomQuoteExcluding [untagged; hughes; barlow] (1 # 2)
    ["may-1988-001"; "hughes-1993-001"] 0 = Some barlow
  ∧ Quotes.getRandomQuoteExcluding [untagged; hughes; barlow] (1 # 2)
      ["may-1988-001"; "hughes-1993-001"] 1 = Some barlow
  ∧ Quotes.getRandomQuoteExcluding [untagged; hughes; barlow] (0 # 1)
      ["may-1988-001"; "hughes-1993-001"] 1 = Some untagged.
Proof. repeat split; vm_compute; reflexivity. Qed.

Lemma includes_self s : Js.includes s s = true.
Proof. apply includes_spec. exists "", "". simpl. now rewrite append_empty_r. Qed.

Lemma includes_empty s : Js.includes s "" = true.
Proof. apply includes_spec. exists "", s. reflexivity. Qed.

Lemma matchesQuery_spec query q :
  Quotes.matchesQuery (Js.toLowerCase query) q = true
  ↔ containsIgnoringCase (text q) (Js.toLowerCase query)
    ∨ containsIgnoringCase (author q) (Js.toLowerCase query)
    ∨ ∃ t, t ∈ tags q ∧ containsIgnoringCase t (Js.toLowerCase query).
Proof.
  unfold Quotes.matchesQuery.
  rewrite !orb_true_iff, !includes_lower_spec, existsb_exists.
  split.
  - intros [[H | H] | (t & Ht & H)]; auto.
    right. right. exists t. rewrite list_elem_of_In, <- includes_lower_spec. auto.
  - intros [H | [H | (t & Ht & H)]]; auto.
    right. exists t. rewrite <- list_elem_of_In, includes_lower_spec. auto.
Qed.

(** X11: searchQuotes returns, in the order of the dataset, exactly the
    quotes of which the text, the author or a tag has a part that equals
    the query when the case of the letters is ignored. The case of the
    query makes no difference, the empty query finds every quote, and the
    search finds every quote that getQuotesByAuthor or getQuotesByTag finds
    for the same word. *)
Theorem searchQuotes_finds quotes query :
  (∀ q, q ∈ Quotes.searchQuotes quotes query
        ↔ q ∈ quotes
          ∧ (containsIgnoringCase (text q) (Js.toLowerCase query)
             ∨ containsIgnoringCase (author q) (Js.toLowerCase query)
             ∨ ∃ t, t ∈ tags q ∧ containsIgnoringCase t (Js.toLowerCase query)))
  ∧ Quotes.searchQuotes quotes query `sublist_of` quotes
  ∧ Quotes.searchQuotes quotes (Js.toLowerCase query) = Quotes.searchQuotes quotes query
  ∧ Quotes.searchQuotes quotes "" = quotes
  ∧ (∀ q, q ∈ Quotes.getQuotesByAuthor quotes query → q ∈ Quotes.searchQuotes quotes query)
  ∧ (∀ q, q ∈ Quotes.getQuotesByTag quotes query → q ∈ Quotes.searchQuotes quotes query).
Proof.
  unfold Quotes.searchQuotes.
  split; [|split; [|split; [|split; [|split]]]].
  - intros q. rewrite list_elem_of_filter, matchesQuery_spec. tauto.
  - apply sublist_filter.
  - cbv zeta. now rewrite toLowerCase_idem.
  - apply filter_all. intros q. unfold Quotes.matchesQuery. simpl.
    now rewrite includes_empty.
  - intros q. unfold Quotes.getQuotesByAuthor.
    rewrite !list_elem_of_filter. intros [H Hq]. split; [|exact Hq].
    unfold Quotes.matchesQuery. rewrite H. now rewrite orb_true_r.
  - intros q. unfold Quotes.getQuotesByTag.
    rewrite !list_elem_of_filter. intros [H Hq]. split; [|exact Hq].
    unfold Quotes.matchesQuery. apply orb_true_iff. right.
    apply existsb_exists in H as (t & Ht & E). apply existsb_exists.
    exists t. split; [exact Ht|].
    apply String.eqb_eq in E. rewrite E. apply includes_self.
Qed.

Example searchQuotes_sample :
  Quotes.searchQuotes [untagged; hughes; barlow] "MANIFESTO" = [hughes; barlow]
  ∧ Quotes.getQuotesByTag [untagged; hughes; barlow] "cyberspace" = [barlow]
  ∧ Quotes.getQuotesByAuthor [untagged; hughes; barlow] "perry" = [barlow].
Proof. repeat split; vm_compute; reflexivity. Qed.

Lemma sortStrings_elem xs x : x ∈ Quotes.sortStrings xs ↔ x ∈ xs.
Proof. unfold Quotes.sortStrings. now rewrite merge_sort_Permutation. Qed.

Lemma sortStrings_NoDup xs : NoDup xs → NoDup (Quotes.sortStrings xs).
Proof. unfold Quotes.sortStrings. now rewrite merge_sort_Permutation. Qed.

Lemma elem_of_concat {A} (x : A) (ls : list (list A)) :
  x ∈ concat ls ↔ ∃ l, x ∈ l ∧ l ∈ ls.
Proof.
  induction ls as [|l ls IH]; simpl.
  - rewrite elem_of_nil. split; [tauto | intros (l & _ & H); inversion H].
  - rewrite elem_of_app, IH. split.
    + intros [H | (l' & H & Hl')]; [exists l | exists l']; split; auto; now constructor.
    + intros (l' & H & Hl'). apply elem_of_cons in Hl' as [-> | Hl']; eauto.
Qed.

(** X12: getAllAuthors lists exactly the authors of the dataset, each of
    them once, in ascending order, and getQuotesByAuthor finds a quote for
    every listed author; getAllTags does the same for the tags, with
    getQuotesByTag. *)
Theorem authors_and_tags_listed quotes :
  (StronglySorted String.le (Quotes.getAllAuthors quotes)
   ∧ NoDup (Quotes.getAllAuthors quotes)
   ∧ (∀ a, a ∈ Quotes.getAllAuthors quotes ↔ ∃ q, q ∈ quotes ∧ author q = a)
   ∧ (∀ a, a ∈ Quotes.getAllAuthors quotes →
           ∃ q, q ∈ Quotes.getQuotesByAuthor quotes a ∧ author q = a))
  ∧ (StronglySorted String.le (Quotes.getAllTags quotes)
     ∧ NoDup (Quotes.getAllTags quotes)
     ∧ (∀ t, t ∈ Quotes.getAllTags quotes ↔ ∃ q, q ∈ quotes ∧ t ∈ tags q)
     ∧ (∀ t, t ∈ Quotes.getAllTags quotes →
             ∃ q, q ∈ Quotes.getQuotesByTag quotes t ∧ t ∈ tags q)).
Proof.
  assert (Ha : ∀ a, a ∈ Quotes.getAllAuthors quotes ↔ ∃ q, q ∈ quotes ∧ author q = a).
  { intros a. unfold Quotes.getAllAuthors.
    rewrite sortStrings_elem, uniq_elem, list_elem_of_fmap.
    split; [intros (q & -> & Hq) | intros (q & Hq & <-)]; eauto. }
  assert (Ht : ∀ t, t ∈ Quotes.getAllTags quotes ↔ ∃ q, q ∈ quotes ∧ t ∈ tags q).
  { intros t. unfold Quotes.getAllTags.
    rewrite sortStrings_elem, uniq_elem, elem_of_concat.
    split.
    - intros (l & Hin & Hl). apply list_elem_of_fmap in Hl as (q & -> & Hq). eauto.
    - intros (q & Hq & Hin). exists (tags q). split; [exact Hin|].
      apply list_elem_of_fmap. eauto. }
  split; (split; [apply StronglySorted_merge_sort; apply _ |]);
    (split; [apply sortStrings_NoDup, uniq_NoDup |]).
  - split; [exact Ha|]. intros a (q & Hq & <-)%Ha. exists q. split; [|reflexivity].
    unfold Quotes.getQuotesByAuthor. apply list_elem_of_filter.
    split; [apply includes_self | exact Hq].
  - split; [exact Ht|]. intros t (q & Hq & Hin)%Ht. exists q. split; [|exact Hin].
    unfold Quotes.getQuotesByTag. apply list_elem_of_filter. split; [|exact Hq].
    apply existsb_exists. exists t. split; [now apply list_elem_of_In|].
    apply String.eqb_refl.
Qed.

Example getAllAuthors_sample :
  Quotes.getAllAuthors [untagged; hughes; barlow; hughes]
  = ["Eric Hughes"; "John Perry Barlow"; "Tim May"]
  ∧ Quotes.getAllTags [untagged; hughes; barlow]
    = ["Cyberspace"; "freedom"; "manifesto"; "open-source"; "privacy"].
Proof. split; vm_compute; reflexivity. Qed.

(** ** The dashboard's state and configuration *)

Section Countdown.

Local Open Scope Z_scope.

(** X13: the countdown of getTimeUntilNextPost agrees with shouldPost:
    canPostNow holds exactly when shouldPost does, for the same stored
    state, clock and whole number of hours. Hours, minutes and seconds are
    the time left cut to whole seconds, with minutes and seconds below 60,
    and all three are 0 when canPostNow holds. *)
Theorem countdown_agrees_with_shouldPost (w : Service.Window) (now intervalHours : Z) :
  let t := Service.getTimeUntilNextPost w now intervalHours in
  let remaining :=
    Z.max 0 (lastPostTimestamp (Service.getBotState w)
             + intervalHours * 60 * 60 * 1000 - now) in
  Service.canPostNow t = Service.shouldPost w now intervalHours
  ∧ 0 <= Service.hours t
  ∧ 0 <= Service.minutes t < 60
  ∧ 0 <= Service.seconds t < 60
  ∧ Service.hours t * 3600000 + Service.minutes t * 60000 + Service.seconds t * 1000
    <= remaining
    < Service.hours t * 3600000 + Service.minutes t * 60000 + Service.seconds t * 1000
      + 1000
  ∧ (Service.canPostNow t = true →
     Service.hours t = 0 ∧ Service.minutes t = 0 ∧ Service.seconds t = 0).
Proof.
  intros t remaining.
  unfold t, Service.getTimeUntilNextPost, Service.shouldPost.
  cbn [Service.hours Service.minutes Service.seconds Service.canPostNow].
  fold remaining.
  change (60 * 60 * 1000) with 3600000. change (60 * 1000) with 60000.
  assert (Hr : 0 <= remaining) by apply Z.le_max_l.
  split.
  - destruct (Z.eqb_spec remaining 0) as [E | E];
      destruct (Z.leb_spec (intervalHours * 60 * 60 * 1000)
                  (now - lastPostTimestamp (Service.getBotState w)));
      unfold remaining in *; lia.
  - split; [|split; [|split; [|split]]].
    + apply Z.div_pos; lia.
    + split; [apply Z.div_pos; [apply Z.mod_pos_bound|]; lia|].
      apply Z.div_lt_upper_bound; [lia|].
      pose proof (Z.mod_pos_bound remaining 3600000). lia.
    + split; [apply Z.div_pos; [apply Z.mod_pos_bound|]; lia|].
      apply Z.div_lt_upper_bound; [lia|].
      pose proof (Z.mod_pos_bound remaining 60000). lia.
    + Z.div_mod_to_equations. lia.
    + intros E%Z.eqb_eq. rewrite E. repeat split; reflexivity.
Qed.

End Countdown.

Example countdown_sample :
  Service.getTimeUntilNextPost
    (Some {| Service.stateItem := Service.GoodItem sampleState;
             Service.configItem := Service.NoItem |})
    1699980000123 8
  = {| Service.hours := 5; Service.minutes := 33; Service.seconds := 19;
       Service.canPostNow := false |}.
Proof. reflexivity. Qed.

(** X14: after saveBotConfig, getBotConfig returns for each property the
    value given in the partial configuration, the value getBotConfig
    returned before when the property is not given, and the default value
    when the property is given as undefined. The stored state is not
    touched, and saving the state does not touch the configuration.
    Without a window nothing is stored and the defaults are read. *)
Theorem saveBotConfig_then_getBotConfig (ls : Service.LocalStorage)
    (config : Service.PartialConfig) (state : BotState) :
  let w := Some ls in
  let before := Service.getBotConfig w in
  let after := Service.getBotConfig (Service.saveBotConfig w config) in
  Dashboard.relays after
  = match Service.f_relays config with
    | Service.Present v => v
    | Service.Absent => Dashboard.relays before
    | Service.Undefined => Dashboard.relays Dashboard.DEFAULT_BOT_CONFIG
    end
  ∧ Dashboard.intervalHours after
    = match Service.f_intervalHours config with
      | Service.Present v => v
      | Service.Absent => Dashboard.intervalHours before
      | Service.Undefined => Dashboard.intervalHours Dashboard.DEFAULT_BOT_CONFIG
      end
  ∧ Dashboard.hashtags after
    = match Service.f_hashtags config with
      | Service.Present v => v
      | Service.Absent => Dashboard.hashtags before
      | Service.Undefined => Dashboard.hashtags Dashboard.DEFAULT_BOT_CONFIG
      end
  ∧ Service.getBotState (Service.saveBotConfig w config) = Service.getBotState w
  ∧ Service.getBotConfig (Service.saveBotState w state) = before
  ∧ Service.getBotState (Service.saveBotState w state) = state
  ∧ Service.saveBotConfig None config = None
  ∧ Service.getBotConfig None = Dashboard.DEFAULT_BOT_CONFIG.
Proof.
  intros w before after. unfold after, before, w.
  destruct config as [[ | | r] [ | | h] [ | | t]]; repeat split; reflexivity.
Qed.

Example saveBotConfig_sample :
  let w := Some {| Service.stateItem := Service.NoItem;
                   Service.configItem := Service.BadItem |} in
  let w1 := Service.saveBotConfig w
              {| Service.f_relays := Service.Absent;
                 Service.f_intervalHours := Service.Present 4%Z;
                 Service.f_hashtags := Service.Present ["nostr"] |} in
  let w2 := Service.saveBotConfig w1
              {| Service.f_relays := Service.Present ["wss://a.example"];
                 Service.f_intervalHours := Service.Absent;
                 Service.f_hashtags := Service.Undefined |} in
  Service.getBotConfig w2
  = {| Dashboard.relays := ["wss://a.example"]; Dashboard.intervalHours := 4;
       Dashboard.hashtags := ["cypherpunk"; "bitcoin"; "privacy"; "freedom"] |}.
Proof. reflexivity. Qed.

(** ** The posting hook *)

(** X15: the hook records a quote only after its event was published.
    When createEvent throws, the error is passed on and the storage stays
    as it was. When it returns, the stored state is the one before with
    the quote's id appended, cut to the last 50 ids, the new timestamp and
    the counter raised by one, and the configuration stays as it was.
    With includeHashtags the published content is the text
    formatQuoteWithHashtags shows for the quote. *)
Theorem mutationFn_records_after_publish
    (createEvent : PostQuote.EventDraft → Completion unit) (ls : Service.LocalStorage)
    (now : Z) (quote : Quote) (includeHashtags : bool) :
  let w := Some ls in
  let config := Service.getBotConfig w in
  let draft :=
    {| PostQuote.draft_kind := 1;
       PostQuote.draft_content :=
         if includeHashtags then Dashboard.formatQuoteWithHashtags quote config
         else Dashboard.formatQuoteForNostr quote;
       PostQuote.draft_tags := Dashboard.generateQuoteTags quote config |} in
  let result := PostQuote.mutationFn createEvent w now quote includeHashtags in
  (∀ e, createEvent draft = Throw e → result = (Throw e, w))
  ∧ (createEvent draft = Return tt →
     result.1 = Return (quote, PostQuote.draft_content draft)
     ∧ Service.getBotState result.2
       = {| recentQuoteIds :=
              Js.sliceLast Dashboard.CAP
                (recentQuoteIds (Service.getBotState w) ++ [id quote]);
            lastPostTimestamp := now;
            totalPostsCount := (totalPostsCount (Service.getBotState w) + 1)%Z |}
     ∧ Service.getBotConfig result.2 = config).
Proof.
  intros w config draft result.
  assert (E : result = match createEvent draft with
                       | Throw e => (Throw e, w)
                       | Return _ =>
                           (Return (quote, PostQuote.draft_content draft),
                            Service.recordPostedQuote w now (id quote))
                       end).
  { unfold result, PostQuote.mutationFn, draft, config.
    destruct includeHashtags; reflexivity. }
  rewrite E. split.
  - intros e ->. reflexivity.
  - intros ->. repeat split; reflexivity.
Qed.

(** ** Hashtags and topic tags *)

Lemma endsWith_app (front suffix : string) : Js.endsWith (front +:+ suffix) suffix.
Proof. now exists front. Qed.

Lemma elem_of_take_elem {A} (n : nat) (l : list A) (x : A) : x ∈ take n l → x ∈ l.
Proof.
  intros H. rewrite <- (take_drop n l). apply elem_of_app. now left.
Qed.

(** X16: every hashtag of the hashtag line has its topic tag in the event.
    In the script the line holds the quote's normalised tags and
    generateTags has a tag [t, h] for each of them; in the dashboard the
    line holds the configured hashtags and the quote's first three tags,
    and generateQuoteTags has a tag [t, h] for each of them. *)
Theorem displayed_hashtags_are_tagged quote config :
  (∀ h, h ∈ map normalizeHashtag (tags quote) → ["t"; h] ∈ Bot.generateTags quote)
  ∧ (tags quote ≠ [] →
     Js.endsWith (Bot.formatQuote quote)
       (hashtagLine (map normalizeHashtag (tags quote))))
  ∧ (∀ h, h ∈ Js.uniq (Dashboard.hashtags config ++ take 3 (tags quote)) →
          ["t"; h] ∈ Dashboard.generateQuoteTags quote config)
  ∧ Js.endsWith (Dashboard.formatQuoteWithHashtags quote config)
      (hashtagLine (Js.uniq (Dashboard.hashtags config ++ take 3 (tags quote)))).
Proof.
  split; [|split; [|split]].
  - intros h (t & -> & Ht)%list_elem_of_fmap. unfold Bot.generateTags.
    apply elem_of_app. left. apply list_elem_of_fmap. eauto.
  - intros Hne. unfold Bot.formatQuote.
    rewrite (proj2 (Nat.ltb_lt 0 (length (tags quote)))).
    + rewrite <- append_assoc. apply endsWith_app.
    + destruct (tags quote); [contradiction | simpl; lia].
  - intros h Hh. apply uniq_elem, elem_of_app in Hh.
    unfold Dashboard.generateQuoteTags. rewrite !elem_of_app, !list_elem_of_fmap.
    destruct (decide (h ∈ Dashboard.hashtags config)) as [Hin | Hout].
    + left. eauto.
    + right. left. exists h. split; [reflexivity|].
      apply list_elem_of_filter. split.
      * unfold Dashboard.arrayIncludes. now apply bool_decide_eq_false_2.
      * destruct Hh as [Hh | Hh]; [contradiction | eapply elem_of_take_elem, Hh].
  - unfold Dashboard.formatQuoteWithHashtags. rewrite <- append_assoc.
    apply endsWith_app.
Qed.

Lemma normalizeHashtag_twice x : normalizeHashtag (normalizeHashtag x) = normalizeHashtag x.
Proof.
  unfold normalizeHashtag.
  now rewrite toLowerCase_stripped, toLowerCase_idem, removeAll_idem.
Qed.

(** X17: the value of every topic tag generateTags emits is a normalised
    hashtag: normalizeHashtag leaves it as it is, and it holds no
    upper-case letter, hyphen or whitespace. The tags named quote_id and
    client are the only others. *)
Theorem generated_tags_are_normalised quote tag :
  tag ∈ Bot.generateTags quote →
  (∃ v, tag = ["t"; v] ∧ normalizeHashtag v = v
        ∧ Forall (λ c, Js.is_upper c = false ∧ is_hyphen_or_space c = false) (chars v))
  ∨ tag = ["quote_id"; id quote]
  ∨ tag = ["client"; "Cypherpunk Quotes Bot"].
Proof.
  assert (Hnorm : ∀ x, ∃ v, ["t"; normalizeHashtag x] = ["t"; v]
      ∧ normalizeHashtag v = v
      ∧ Forall (λ c, Js.is_upper c = false ∧ is_hyphen_or_space c = false) (chars v)).
  { intros x. exists (normalizeHashtag x). split; [reflexivity|].
    split; [apply normalizeHashtag_twice|].
    pose proof (normalizeHashtag_no_upper x) as Hup.
    pose proof (removeAll_chars is_hyphen_or_space (Js.toLowerCase x)) as Hcls.
    fold (normalizeHashtag x) in Hcls.
    rewrite Forall_forall in Hup, Hcls. apply Forall_forall. intros c Hc.
    split; [apply Hup, Hc | apply Hcls, Hc]. }
  unfold Bot.generateTags. rewrite !elem_of_app, !list_elem_of_singleton.
  intros [(t & -> & _)%list_elem_of_fmap | [-> | [-> | ->]]]; auto.
Qed.

Lemma generated_tags_are_normalised_witness :
  (∃ v, ["t"; "opensource"] = ["t"; v] ∧ normalizeHashtag v = v
        ∧ Forall (λ c, Js.is_upper c = false ∧ is_hyphen_or_space c = false) (chars v))
  ∨ ["t"; "opensource"] = ["quote_id"; id barlow]
  ∨ ["t"; "opensource"] = ["client"; "Cypherpunk Quotes Bot"].
Proof.
  apply (generated_tags_are_normalised barlow ["t"; "opensource"]).
  vm_compute. apply list_elem_of_In. simpl. auto.
Defined.

(** ** Whitespace around the key *)

Section Trim.

Lemma trimStart_spaces_app ws s : spaces ws → Js.trimStart (ws +:+ s) = Js.trimStart s.
Proof. apply skipSpace_spaces_app. Qed.

Lemma rev_app_acc s : ∀ acc, String.rev_app s acc = String.rev_app s "" +:+ acc.
Proof.
  induction s as [|c s IH]; intros acc; simpl; [reflexivity|].
  rewrite (IH (String c acc)), (IH (String c "")), append_assoc. reflexivity.
Qed.

Lemma rev_app_append a b : ∀ acc,
  String.rev_app (a +:+ b) acc = String.rev_app b (String.rev_app a acc).
Proof. induction a as [|c a IH]; intros acc; simpl; [reflexivity | apply IH]. Qed.

Lemma rev_append a b : String.rev (a +:+ b) = String.rev b +:+ String.rev a.
Proof. unfold String.rev. now rewrite rev_app_append, rev_app_acc. Qed.

Lemma trimEnd_spaces_app s ws : spaces ws → Js.trimEnd (s +:+ ws) = Js.trimEnd s.
Proof.
  intros Hws. unfold Js.trimEnd. rewrite rev_append, skipSpace_spaces_app; [reflexivity|].
  apply rev_app_chars; [exact Hws | constructor].
Qed.

Lemma trim_spaces_app_r s ws :
  spaces ws → Js.trimEnd (Js.trimStart (s +:+ ws)) = Js.trimEnd (Js.trimStart s).
Proof.
  intros Hws. unfold Js.trimStart. rewrite (skipSpace_app_spaces false ws Hws s).
  destruct (Js.skipSpace false s) as [|c r]; [reflexivity|].
  apply (trimEnd_spaces_app (String c r) ws Hws).
Qed.

(** [trim] removes the whitespace at both ends. *)
Lemma trim_spaces_around ws1 s ws2 :
  spaces ws1 → spaces ws2 → Js.trim (ws1 +:+ s +:+ ws2) = Js.trim s.
Proof.
  intros H1 H2. unfold Js.trim.
  now rewrite trimStart_spaces_app, trim_spaces_app_r.
Qed.

End Trim.

(** X18: whitespace before and after the key makes no difference to
    parsePrivateKey: a key with spaces, tabs or line ends around it is
    parsed as the key alone. *)
Theorem parsePrivateKey_ignores_surrounding_space `{NostrTools} ws1 keyStr ws2 :
  spaces ws1 → spaces ws2 →
  Bot.parsePrivateKey (ws1 +:+ keyStr +:+ ws2) = Bot.parsePrivateKey keyStr.
Proof.
  intros H1 H2. unfold Bot.parsePrivateKey.
  now rewrite (trim_spaces_around ws1 keyStr ws2 H1 H2).
Qed.

Lemma parsePrivateKey_ignores_surrounding_space_witness :
  @Bot.parsePrivateKey sampleTools
    ((String "009" " ") +:+ sampleHexKey +:+ (String "013" (String "010" "")))
  = @Bot.parsePrivateKey sampleTools sampleHexKey.
Proof.
  apply (@parsePrivateKey_ignores_surrounding_space sampleTools
           (String "009" " ") sampleHexKey (String "013" (String "010" ""))).
  - repeat constructor.
  - repeat constructor.
Defined.

(** ** The relay list *)

Section RelayList.

Lemma splitOn_nonempty sep s : Js.splitOn sep s ≠ [].
Proof.
  destruct s as [|c s]; simpl; [discriminate|].
  destruct (Ascii.eqb c sep); [discriminate|].
  destruct (Js.splitOn sep s); discriminate.
Qed.

Lemma splitOn_app_piece p : ∀ s,
  no_comma p →
  Js.splitOn "," (p +:+ s)
  = match Js.splitOn "," s with
    | [] => [p]
    | x :: xs => (p +:+ x) :: xs
    end.
Proof.
  induction p as [|c p IH]; intros s Hp.
  - simpl. destruct (Js.splitOn "," s) eqn:E; [|reflexivity].
    now apply splitOn_nonempty in E.
  - unfold no_comma, chars in Hp. cbn [list_ascii_of_string] in Hp.
    apply Forall_cons in Hp as [Hc Hp]. cbn [String.append Js.splitOn].
    rewrite Hc, (IH s Hp). now destruct (Js.splitOn "," s).
Qed.

Lemma splitOn_join pieces :
  pieces ≠ [] → Forall no_comma pieces →
  Js.splitOn "," (Js.join "," pieces) = pieces.
Proof.
  induction pieces as [|p rest IH]; intros Hne Hall; [contradiction|].
  apply Forall_cons in Hall as [Hp Hrest].
  destruct rest as [|q rest].
  - simpl. rewrite <- (append_empty_r p) at 1.
    rewrite splitOn_app_piece by exact Hp. simpl. now rewrite append_empty_r.
  - change (Js.join "," (p :: q :: rest))
      with (p +:+ "," +:+ Js.join "," (q :: rest)).
    rewrite splitOn_app_piece by exact Hp.
    change (Js.splitOn "," ("," +:+ Js.join "," (q :: rest)))
      with ("" :: Js.splitOn "," (Js.join "," (q :: rest))).
    rewrite IH by (auto; discriminate). now rewrite append_empty_r.
Qed.

End RelayList.

Lemma prepare_relays `{NostrTools} run p :
  Bot.prepare run = Return p → Bot.p_relays p = configuredRelays (Bot.env_RELAYS run).
Proof.
  unfold Bot.prepare.
  destruct (Bot.parsePrivateKey _) as [secretKey|e]; [|discriminate]. cbn [bind].
  destruct (getPublicKey secretKey) as [pubkey|e]; [|discriminate]. cbn [bind].
  destruct (Bot.getRandomQuote _ _ _ _ _ _ _) as [quote|]; [|discriminate].
  destruct (finalizeEvent _ _) as [event|e]; [|discriminate]. cbn [bind].
  intros [= <-]. reflexivity.
Qed.

(** X19: main takes its relays from RELAYS, one for each piece between
    the commas, with the whitespace around the piece removed; pieces that
    are empty stay in the list as empty URLs. With RELAYS unset or empty
    the five built-in relays are used. *)
Theorem relays_from_environment `{NostrTools} :
  configuredRelays None = Bot.DEFAULT_RELAYS
  ∧ configuredRelays (Some "") = Bot.DEFAULT_RELAYS
  ∧ length Bot.DEFAULT_RELAYS = 5
  ∧ (∀ pieces,
       Forall no_comma pieces → Js.join "," pieces ≠ "" →
       configuredRelays (Some (Js.join "," pieces)) = map Js.trim pieces)
  ∧ (∀ run p, Bot.prepare run = Return p →
              Bot.p_relays p = configuredRelays (Bot.env_RELAYS run)).
Proof.
  split; [reflexivity|]. split; [reflexivity|]. split; [reflexivity|]. split.
  - intros pieces Hall Hne. unfold configuredRelays, truthy_string.
    destruct (String.eqb_spec (Js.join "," pieces) "") as [E|_]; [contradiction|].
    rewrite splitOn_join; [reflexivity | | exact Hall].
    intros ->. now apply Hne.
  - intros run p. apply prepare_relays.
Qed.

Example relays_sample :
  configuredRelays (Some "wss://a.example, wss://b.example ,,wss://c.example,")
  = ["wss://a.example"; "wss://b.example"; ""; "wss://c.example"; ""].
Proof. reflexivity. Qed.

(** ** Runs in sequence *)

Lemma main_cases `{NostrTools} run :
  (∃ e, Bot.main run = {| Bot.outcome := Throw e; Bot.fileAfter := Bot.stateFile run |})
  ∨ (∃ quote,
       Bot.main run
       = {| Bot.outcome := Return tt;
            Bot.fileAfter := Bot.Stored
              (Bot.recordPost (Bot.now_saved run) (Bot.loadState (Bot.stateFile run))
                 quote) |}).
Proof.
  unfold Bot.main. destruct (Bot.prepare run) as [p|e] eqn:E; [|eauto].
  destruct (prepare_selects run p E) as [Hstate _].
  destruct (Bot.publishToRelays _ _ _) as [[]|e]; [|eauto].
  right. exists (Bot.p_quote p). now rewrite Hstate.
Qed.

Lemma recordPost_length now state quote :
  length (recentQuoteIds (Bot.recordPost now state quote)) ≤ 100.
Proof. rewrite recordPost_ids, sliceLast_length. lia. Qed.

(** X20: over any sequence of runs that hand the state file from one to
    the next, totalPostsCount grows by exactly the number of runs that
    ended normally, and the file is not written when none did. Once the
    file holds at most 100 ids, or one run has ended normally, it holds at
    most 100 ids after every later run. *)
Theorem schedule_counts_posts `{NostrTools} runs : ∀ f,
  let final := (schedule f runs).1 in
  let posts := (schedule f runs).2 in
  totalPostsCount (Bot.loadState final)
  = (totalPostsCount (Bot.loadState f) + Z.of_nat posts)%Z
  ∧ posts ≤ length runs
  ∧ (posts = 0 → final = f)
  ∧ (length (recentQuoteIds (Bot.loadState f)) ≤ 100 ∨ 0 < posts →
     length (recentQuoteIds (Bot.loadState final)) ≤ 100).
Proof.
  induction runs as [|run rest IH]; intros f; cbn zeta.
  - simpl. repeat split; intros; auto; lia.
  - cbn [schedule].
    destruct (main_cases (withStateFile f run)) as [[e E] | [quote E]];
      rewrite E; cbn [Bot.fileAfter Bot.outcome succeeded withStateFile Bot.stateFile].
    + specialize (IH f). cbn zeta in IH.
      destruct (schedule f rest) as [f' n]. cbn [fst snd] in *.
      destruct IH as (Hc & Hn & Hz & Hl).
      repeat split; [exact Hc | simpl; lia | exact Hz | exact Hl].
    + set (state := Bot.recordPost _ _ quote).
      specialize (IH (Bot.Stored state)). cbn zeta in IH.
      destruct (schedule (Bot.Stored state) rest) as [f' n]. cbn [fst snd] in *.
      destruct IH as (Hc & Hn & Hz & Hl). cbn [Bot.loadState] in Hc, Hl.
      repeat split.
      * rewrite Hc. unfold state. cbn [Bot.recordPost totalPostsCount]. lia.
      * simpl. lia.
      * discriminate.
      * intros _. apply Hl. left. apply recordPost_length.
Qed.

Example schedule_sample :
  @schedule sampleTools Bot.Missing
    [sampleRun deadNet; sampleRun partialNet; sampleRun deadNet; sampleRun historyNet]
  = (Bot.Stored {| recentQuoteIds := ["hughes-1993-001"; "may-1988-001"];
                   lastPostTimestamp := 1700000009789;
                   totalPostsCount := 2 |}, 2).
Proof. vm_compute. reflexivity. Qed.

(** ** The statistics of the dashboard *)

Section Counting.

Lemma quotesOf_cons a q quotes :
  quotesOf a (q :: quotes) = (if decide (author q = a) then 1 else 0) + quotesOf a quotes.
Proof.
  unfold quotesOf. rewrite filter_cons. destruct (decide (author q = a)); reflexivity.
Qed.

Lemma quotesOf_pos a quotes : 0 < quotesOf a quotes ↔ ∃ q, q ∈ quotes ∧ author q = a.
Proof.
  unfold quotesOf. split.
  - intros Hpos. destruct (filter _ quotes) as [|q l] eqn:E; [simpl in Hpos; lia|].
    assert (q ∈ filter (λ q, author q = a) quotes) as Hq by (rewrite E; left).
    apply list_elem_of_filter in Hq as [Ha Hq]. eauto.
  - intros (q & Hq & Ha).
    assert (q ∈ filter (λ q, author q = a) quotes) as Hin
      by (apply list_elem_of_filter; auto).
    destruct (filter _ quotes); [inversion Hin | simpl; lia].
Qed.

Lemma countByAuthor_lookup quotes : ∀ (m : gmap string nat) a,
  (∀ k n, m !! k = Some n → 0 < n) →
  Stats.countByAuthor quotes m !! a
  = match m !! a with
    | Some n => Some (n + quotesOf a quotes)
    | None => if quotesOf a quotes =? 0 then None else Some (quotesOf a quotes)
    end.
Proof.
  induction quotes as [|q rest IH]; intros m a Hm.
  - simpl. destruct (m !! a) as [n|]; [|reflexivity]. f_equal. unfold quotesOf. simpl. lia.
  - cbn [Stats.countByAuthor]. rewrite IH.
    + rewrite quotesOf_cons. destruct (decide (author q = a)) as [<- | Hne].
      * rewrite lookup_insert_eq. unfold Stats.bump.
        destruct (m !! author q) as [n|] eqn:E.
        -- pose proof (Hm _ _ E) as Hn.
           destruct (Nat.eqb_spec n 0); [lia|]. f_equal. lia.
        -- simpl. reflexivity.
      * rewrite lookup_insert_ne by exact Hne. reflexivity.
    + intros k n. destruct (decide (author q = k)) as [<- | Hne].
      * rewrite lookup_insert_eq. intros [= <-]. unfold Stats.bump.
        destruct (m !! author q); lia.
      * rewrite lookup_insert_ne by exact Hne. apply Hm.
Qed.

Lemma sum_zero {A} (l : list A) : sum_list_with (λ _, 0) l = 0.
Proof. induction l; simpl; auto. Qed.

Lemma sum_ext {A} (f g : A → nat) l :
  (∀ x, x ∈ l → f x = g x) → sum_list_with f l = sum_list_with g l.
Proof.
  induction l as [|x l IH]; intros H; simpl; [reflexivity|].
  rewrite (H x) by left. rewrite IH; [reflexivity|]. intros y Hy. apply H. now right.
Qed.

Lemma sum_add {A} (f g : A → nat) l :
  sum_list_with (λ x, f x + g x) l = sum_list_with f l + sum_list_with g l.
Proof. induction l as [|x l IH]; simpl; [reflexivity | rewrite IH; lia]. Qed.

Lemma sum_indicator (a : string) ks :
  NoDup ks → a ∈ ks → sum_list_with (λ k, if decide (a = k) then 1 else 0) ks = 1.
Proof.
  induction 1 as [|k ks Hk Hnd IH]; intros Ha; [inversion Ha|].
  simpl. destruct (decide (a = k)) as [-> | Hne].
  - assert (sum_list_with (λ k0, if decide (k = k0) then 1 else 0) ks = 0) as ->; [|lia].
    clear IH Ha Hnd. induction ks as [|x ks IH]; [reflexivity|]. simpl.
    apply not_elem_of_cons in Hk as [Hx Hk]. rewrite decide_False by exact Hx.
    now apply IH.
  - apply elem_of_cons in Ha as [-> | Ha]; [contradiction|]. now rewrite IH.
Qed.

(** The counts of the authors of a list add up to the number of quotes. *)
Lemma sum_quotesOf ks : ∀ quotes,
  NoDup ks → (∀ q, q ∈ quotes → author q ∈ ks) →
  sum_list_with (λ a, quotesOf a quotes) ks = length quotes.
Proof.
  induction quotes as [|q rest IH]; intros Hnd Hall.
  - apply sum_zero.
  - rewrite (sum_ext _ (λ a, (if decide (author q = a) then 1 else 0) + quotesOf a rest))
      by (intros a _; apply quotesOf_cons).
    rewrite sum_add, sum_indicator, IH; auto.
    + intros q' Hq'. apply Hall. now right.
    + apply Hall. left.
Qed.

Lemma getAllAuthors_elem quotes a :
  a ∈ Quotes.getAllAuthors quotes ↔ ∃ q, q ∈ quotes ∧ author q = a.
Proof.
  unfold Quotes.getAllAuthors. rewrite sortStrings_elem, uniq_elem, list_elem_of_fmap.
  split; [intros (q & -> & Hq) | intros (q & Hq & <-)]; eauto.
Qed.

Lemma getAllAuthors_NoDup quotes : NoDup (Quotes.getAllAuthors quotes).
Proof. apply sortStrings_NoDup, uniq_NoDup. Qed.

End Counting.

(** X21: for a dataset in which no author bears a name that every object
    inherits, getQuoteStats counts the quotes; quotesByAuthor has an entry
    for exactly the authors of getAllAuthors, the entry of an author is the
    number of that author's quotes, and the entries add up to
    totalQuotes. *)
Theorem getQuoteStats_counts quotes :
  Forall (λ q, author q ∉ Stats.inheritedNames) quotes →
  ∃ stats,
    Stats.getQuoteStats quotes = Some stats
    ∧ Stats.totalQuotes stats = length quotes
    ∧ size (Stats.quotesByAuthor stats) = Stats.totalAuthors stats
    ∧ (∀ a, Stats.quotesByAuthor stats !! a
            = if quotesOf a quotes =? 0 then None else Some (quotesOf a quotes))
    ∧ (∀ a, is_Some (Stats.quotesByAuthor stats !! a) ↔ a ∈ Quotes.getAllAuthors quotes)
    ∧ sum_list_with (λ a, default 0 (Stats.quotesByAuthor stats !! a))
        (Quotes.getAllAuthors quotes)
      = Stats.totalQuotes stats.
Proof.
  intros Hnames. unfold Stats.getQuoteStats.
  rewrite bool_decide_eq_false_2.
  2: { intros (q & Hq & Hin)%Exists_exists.
       rewrite Forall_forall in Hnames. exact (Hnames q Hq Hin). }
  eexists. split; [reflexivity|]. cbn [Stats.totalQuotes Stats.totalAuthors Stats.quotesByAuthor].
  assert (Hlookup : ∀ a, Stats.countByAuthor quotes ∅ !! a
                         = if quotesOf a quotes =? 0 then None else Some (quotesOf a quotes)).
  { intros a. rewrite countByAuthor_lookup.
    - now rewrite lookup_empty.
    - intros k n. rewrite lookup_empty. discriminate. }
  assert (Hdom : ∀ a, is_Some (Stats.countByAuthor quotes ∅ !! a)
                      ↔ a ∈ Quotes.getAllAuthors quotes).
  { intros a. rewrite Hlookup, getAllAuthors_elem, <- quotesOf_pos.
    destruct (Nat.eqb_spec (quotesOf a quotes) 0) as [E | E].
    - rewrite E. split; [intros [x Hx]; discriminate Hx | lia].
    - split; [lia | eauto]. }
  split; [reflexivity|]. split; [|split; [exact Hlookup|split; [exact Hdom|]]].
  - rewrite <- size_dom.
    assert (dom (Stats.countByAuthor quotes ∅)
            = (list_to_set (Quotes.getAllAuthors quotes) : gset string)) as ->.
    { apply set_eq. intros a. rewrite elem_of_dom, elem_of_list_to_set. apply Hdom. }
    apply size_list_to_set, getAllAuthors_NoDup.
  - rewrite (sum_ext _ (λ a, quotesOf a quotes)).
    + apply sum_quotesOf; [apply getAllAuthors_NoDup|].
      intros q Hq. apply getAllAuthors_elem. eauto.
    + intros a _. rewrite Hlookup. now destruct (Nat.eqb_spec (quotesOf a quotes) 0) as [-> | ?].
Qed.

Lemma getQuoteStats_counts_witness :
  ∃ stats,
    Stats.getQuoteStats [untagged; hughes; barlow; hughes] = Some stats
    ∧ Stats.totalQuotes stats = length [untagged; hughes; barlow; hughes]
    ∧ size (Stats.quotesByAuthor stats) = Stats.totalAuthors stats
    ∧ (∀ a, Stats.quotesByAuthor stats !! a
            = if quotesOf a [untagged; hughes; barlow; hughes] =? 0 then None
              else Some (quotesOf a [untagged; hughes; barlow; hughes]))
    ∧ (∀ a, is_Some (Stats.quotesByAuthor stats !! a)
            ↔ a ∈ Quotes.getAllAuthors [untagged; hughes; barlow; hughes])
    ∧ sum_list_with (λ a, default 0 (Stats.quotesByAuthor stats !! a))
        (Quotes.getAllAuthors [untagged; hughes; barlow; hughes])
      = Stats.totalQuotes stats.
Proof.
  apply (getQuoteStats_counts [untagged; hughes; barlow; hughes]).
  repeat constructor; intros H; apply list_elem_of_In in H; vm_compute in H;
    repeat (destruct H as [H | H]; [discriminate H|]); exact H.
Defined.

Example getQuoteStats_sample :
  (λ stats, (Stats.totalQuotes stats, Stats.totalAuthors stats, Stats.totalTags stats,
             Stats.quotesByAuthor stats !! "Eric Hughes"))
    <$> Stats.getQuoteStats [untagged; hughes; barlow; hughes]
  = Some (4, 3, 5, Some 2).
Proof. vm_compute. reflexivity. Qed.

(** ** What the hex path makes of sixty-four characters *)

(** The decoder gives at most one byte for two code units, and as many
    only for a string of hex digits. *)
Lemma Buffer_from_hex_length : ∀ n s,
  Js.stringLength s = 2 * n →
  length (Buffer_from_hex s) ≤ n
  ∧ (length (Buffer_from_hex s) = n → Forall (λ c, is_hex c = true) (chars s)).
Proof.
  induction n as [|n IH]; intros s Hlen.
  - apply stringLength_zero in Hlen as ->. split; [reflexivity | constructor].
  - destruct s as [|a [|b rest]]; [discriminate Hlen | cbn in Hlen; lia |].
    cbn [Buffer_from_hex]. unfold chars. cbn [list_ascii_of_string].
    destruct (hex_value a) as [hi|] eqn:Ea, (hex_value b) as [lo|] eqn:Eb;
      cbn [length]; try (split; [lia | intros E; discriminate E]).
    rewrite !stringLength_ascii in Hlen by eauto using hex_value_code.
    destruct (IH rest ltac:(lia)) as [IHle IHhex].
    split; [lia|]. intros E. repeat constructor.
    + unfold is_hex. now rewrite Ea.
    + unfold is_hex. now rewrite Eb.
    + apply IHhex. lia.
Qed.

(** X22: a key of sixty-four characters (UTF-16 code units) that does not
    start with nsec1 is never refused; the secret key returned has at most
    thirty-two bytes, and has thirty-two exactly when every character is a
    hex digit. *)
Theorem hex_key_length `{NostrTools} keyStr :
  Js.startsWith (Js.trim keyStr) "nsec1" = false →
  Js.stringLength (Js.trim keyStr) = 64 →
  ∃ sk, Bot.parsePrivateKey keyStr = Return sk
        ∧ length sk ≤ 32
        ∧ (length sk = 32 ↔ Forall (λ c, is_hex c = true) (chars (Js.trim keyStr))).
Proof.
  intros Hn Hlen. rewrite parsePrivateKey_hex_path by exact Hn. rewrite Hlen.
  cbn [Nat.eqb negb]. eexists. split; [reflexivity|].
  destruct (Buffer_from_hex_length 32 (Js.trim keyStr) Hlen) as [Hle Hhex].
  split; [exact Hle|]. split; [exact Hhex|].
  intros Hall. rewrite (stringLength_plain _ (hex_chars_plain _ Hall)) in Hlen.
  now destruct (Buffer_hex_roundtrip 32 _ Hlen Hall).
Qed.

Lemma hex_key_length_witness :
  ∃ sk, @Bot.parsePrivateKey sampleTools damagedHexKey = Return sk
        ∧ length sk ≤ 32
        ∧ (length sk = 32
           ↔ Forall (λ c, is_hex c = true) (chars (Js.trim damagedHexKey))).
Proof. exact (@hex_key_length sampleTools damagedHexKey eq_refl eq_refl). Defined.

Example damaged_key_is_cut :
  @Bot.parsePrivateKey sampleTools damagedHexKey
  = Return (Buffer_from_hex "5a1c0ffee0").
Proof. vm_compute. reflexivity. Qed.
